(** * TChecker: synchronized product, zone graph with reference clocks,
      covering reachability nodes, parameters and statement analysis.

    A shallow embedding of the functions below and the properties the
    specification states about them:

    - [variables]   : [param_info_t], [parameters_t::declare]
                      (src/variables/params.cc, include/.../params.hh)
    - [statement]   : [extract_read_variables] (src/statement/static_analysis.cc)
    - [syncprod]    : [outgoing_edges_iterator_t], [next], [is_valid_final]
                      (include/tchecker/syncprod/syncprod.hh)
    - [refzg]       : [next], [is_valid_final], [refzg_impl_t]
                      (src/refzg/refzg.cc)
    - [zg_covreach] : [node_hash_t] (src/tck-reach/zg-covreach.cc)

    References and in-place updates of the C++ code are rendered by explicit
    state passing; a function that may throw returns an [outcome]. *)

From stdpp Require Import gmap strings list.
From stdpp Require Import pretty.
From Equations Require Import Equations.

Open Scope Z_scope.

(** ** Basic types (tchecker/basictypes.hh) *)

Abbreviation integer_t := Z (only parsing).
Abbreviation process_id_t := nat (only parsing).
Abbreviation loc_id_t := nat (only parsing).
Abbreviation edge_id_t := nat (only parsing).
Abbreviation event_id_t := nat (only parsing).
Abbreviation clock_id_t := nat (only parsing).
Abbreviation intvar_id_t := nat (only parsing).
Abbreviation param_id_t := nat (only parsing).

(** Modelled from the spec: the enumeration [state_status_t] is declared in
    tchecker/basictypes.hh, which is missing. The constructors are the error
    kinds that the specification lists for a step. *)
Inductive state_status_t : Set :=
  | STATE_OK
  | STATE_INCOMPATIBLE_EDGE
  | STATE_GUARD_VIOLATED
  | STATE_INVARIANT_VIOLATED
  | STATE_INTVAR_VIOLATED
  | STATE_CLOCKS_EMPTY
  | STATE_RESET_FAILED
  | STATE_STATEMENT_FAILED.

#[global] Instance state_status_eq_dec : EqDecision state_status_t.
Proof. solve_decision. Defined.

(** ** Exceptions *)

Inductive exception : Set :=
  | invalid_argument (what : string).

(** Result of a call that either returns a value or throws. *)
Inductive outcome (A : Type) : Type :=
  | Returns (a : A)
  | Throws (e : exception).

Arguments Returns {A} a.
Arguments Throws {A} e.

Definition obind {A B} (m : outcome A) (k : A -> outcome B) : outcome B :=
  match m with
  | Returns a => k a
  | Throws e => Throws e
  end.

Notation "'let!' x ':=' m 'in' k" := (obind m (fun x => k))
  (at level 10, x pattern, m at level 100, k at level 200).

Definition throws_invalid_argument {A} (m : outcome A) : Prop :=
  exists what, m = Throws (invalid_argument what).

(** ** Parameters (src/variables/params.cc) *)

Module variables.

(** Modelled from the spec: [size_info_t] (tchecker/variables/variables.hh)
    is missing. params.hh documents its part of the constructor contract of
    [param_info_t]: precondition [size > 0], [std::invalid_argument] thrown
    when the precondition is violated. *)
Record size_info_t : Set := mk_size_info { _size : nat }.

(** Modelled from the spec: the constructor [size_info_t(size)], from the
    contract above. *)
Definition size_info_t_ctor (size : nat) : outcome size_info_t :=
  if (size =? 0)%nat then Throws (invalid_argument "expecting size > 0")
  else Returns (mk_size_info size).

(** [_initial_value] is declared in the class and never written by the
    constructor: it is left indeterminate ([None]). *)
Record param_info_t : Set := mk_param_info {
  param_base : size_info_t;
  _min : integer_t;
  _max : integer_t;
  _initial_value : option integer_t
}.

Definition min (i : param_info_t) : integer_t := _min i.
Definition max (i : param_info_t) : integer_t := _max i.
Definition size (i : param_info_t) : nat := _size (param_base i).

(** [param_info_t::param_info_t(size, min, max)]: the base sub-object is
    initialised first, then the members, then the body runs. *)
Definition param_info_t_ctor (size : nat) (min max : integer_t)
  : outcome param_info_t :=
  let! base := size_info_t_ctor size in
  let this := mk_param_info base min max None in
  if (_min this <? 0) || (_min this >? _max this)
  then Throws (invalid_argument "expecting 0 <= min <= max")
  else Returns this.

(** The base class [array_variables_t], whose [declare(name, info)] does the
    registration, is missing: it is an interface here. *)
Class ArrayVariables := {
  parameters_t : Type;
  array_variables_declare :
    string -> param_info_t -> parameters_t -> outcome (param_id_t * parameters_t)
}.

(** [parameters_t::declare(name, size, min, max)] *)
Definition declare `{V : ArrayVariables} (name : string) (size : nat)
    (min max : integer_t) (this : parameters_t)
  : outcome (param_id_t * parameters_t) :=
  let! info := param_info_t_ctor size min max in
  array_variables_declare name info this.

End variables.

(** ** Read variables of a statement (src/statement/static_analysis.cc) *)

Module statement.

(** The three sets that the visitor holds by reference. *)
Record var_sets : Type := mk_var_sets {
  clocks : gset clock_id_t;
  intvars : gset intvar_id_t;
  params : gset param_id_t
}.

Definition empty_sets : var_sets := mk_var_sets ∅ ∅ ∅.

Definition sets_union (a b : var_sets) : var_sets :=
  mk_var_sets (clocks a ∪ clocks b) (intvars a ∪ intvars b) (params a ∪ params b).

Definition sets_difference (a b : var_sets) : var_sets :=
  mk_var_sets (clocks a ∖ clocks b) (intvars a ∖ intvars b) (params a ∖ params b).

Definition sets_subseteq (a b : var_sets) : Prop :=
  clocks a ⊆ clocks b /\ intvars a ⊆ intvars b /\ params a ⊆ params b.

(** Modelled from the spec: the typed expressions and their analysis
    (tchecker/expression/static_analysis.hh: [extract_variables],
    [extract_lvalue_offset_variable_ids]) are missing. Statement analysis is
    assumed to expose variable sets: each helper inserts into the three sets
    the identifiers of the variables that occur in the expression (for an
    lvalue: in its offset), which depend on the expression alone. *)
Class ExpressionAnalysis := {
  typed_expression_t : Type;
  typed_lvalue_expression_t : Type;
  typed_var_expression_t : Type;
  lvalue_as_expression : typed_lvalue_expression_t -> typed_expression_t;
  variables_of : typed_expression_t -> var_sets;
  lvalue_offset_variables_of : typed_lvalue_expression_t -> var_sets
}.

Section Statements.
Context `{EA : ExpressionAnalysis}.

(** Modelled from the spec: [extract_variables(expr, clocks, intvars,
    params)] adds the variables of [expr] to the sets. *)
Definition extract_variables (e : typed_expression_t) (s : var_sets) : var_sets :=
  sets_union s (variables_of e).

(** Modelled from the spec: [extract_lvalue_offset_variable_ids(expr,
    clocks, intvars, params)] adds the variables of the offset of the lvalue
    [expr] to the sets. *)
Definition extract_lvalue_offset_variable_ids (e : typed_lvalue_expression_t)
    (s : var_sets) : var_sets :=
  sets_union s (lvalue_offset_variables_of e).

(** The statement classes accepted by [typed_statement_visitor_t]. *)
Inductive typed_statement_t : Type :=
  | typed_nop_statement_t
  | typed_assign_statement_t
      (lvalue : typed_lvalue_expression_t) (rvalue : typed_expression_t)
  | typed_int_to_clock_assign_statement_t
      (clock : typed_lvalue_expression_t) (value : typed_expression_t)
  | typed_clock_to_clock_assign_statement_t
      (lclock rclock : typed_lvalue_expression_t)
  | typed_sum_to_clock_assign_statement_t
      (lclock rclock : typed_lvalue_expression_t) (value : typed_expression_t)
  | typed_param_to_clock_assign_statement_t
      (clock : typed_lvalue_expression_t) (value : typed_expression_t)
  | typed_sequence_statement_t (first second : typed_statement_t)
  | typed_if_statement_t
      (condition : typed_expression_t) (then_stmt else_stmt : typed_statement_t)
  | typed_while_statement_t
      (condition : typed_expression_t) (statement : typed_statement_t)
  | typed_local_var_statement_t
      (variable : typed_var_expression_t) (initial_value : typed_expression_t)
  | typed_local_array_statement_t
      (variable : typed_var_expression_t) (size : typed_expression_t).

(** [extract_read_variables_visitor_t::visit]: the visitor state is the
    triple of referenced sets, threaded through the calls in program
    order. *)
Fixpoint visit (stmt : typed_statement_t) (s : var_sets) : var_sets :=
  match stmt with
  | typed_nop_statement_t => s
  | typed_assign_statement_t lvalue rvalue =>
      let s := extract_variables rvalue s in
      extract_lvalue_offset_variable_ids lvalue s
  | typed_int_to_clock_assign_statement_t clock value =>
      let s := extract_variables value s in
      extract_lvalue_offset_variable_ids clock s
  | typed_clock_to_clock_assign_statement_t lclock rclock =>
      let s := extract_variables (lvalue_as_expression rclock) s in
      extract_lvalue_offset_variable_ids lclock s
  | typed_sum_to_clock_assign_statement_t lclock rclock value =>
      let s := extract_variables (lvalue_as_expression rclock) s in
      let s := extract_variables value s in
      extract_lvalue_offset_variable_ids lclock s
  | typed_param_to_clock_assign_statement_t clock value =>
      let s := extract_variables value s in
      extract_lvalue_offset_variable_ids clock s
  | typed_sequence_statement_t first second =>
      let s := visit first s in
      visit second s
  | typed_if_statement_t condition then_stmt else_stmt =>
      let s := extract_variables condition s in
      let s := visit then_stmt s in
      visit else_stmt s
  | typed_while_statement_t condition statement =>
      let s := extract_variables condition s in
      visit statement s
  | typed_local_var_statement_t _ initial_value =>
      extract_variables initial_value s
  | typed_local_array_statement_t _ size =>
      extract_variables size s
  end.

(** [extract_read_variables(stmt, clocks, intvars, params)] *)
Definition extract_read_variables (stmt : typed_statement_t) (s : var_sets)
  : var_sets :=
  visit stmt s.

(** What a call adds to the sets it is given. *)
Definition added (stmt : typed_statement_t) (s : var_sets) : var_sets :=
  sets_difference (extract_read_variables stmt s) s.

End Statements.

End statement.

(** ** Synchronized product (include/tchecker/syncprod/syncprod.hh) *)

Module syncprod.

(** Modelled from the spec: the classes of the discrete system model
    (tchecker/system, tchecker/syncprod/system.hh) are missing. A location has
    an identifier, an owning process and the committed and urgent flags; an
    edge has an identifier, a process, source and target locations of that
    process and an event. Locations are stored by identifier. *)
Record loc_t : Set := mk_loc {
  loc_pid : process_id_t;
  loc_committed : bool;
  loc_urgent : bool
}.

(** Modelled from the spec: an edge of a process (tchecker/system/edge.hh is
    missing), with the accessors [id()], [pid()], [src()], [tgt()] and
    [event_id()]. *)
Record edge_t : Set := mk_edge {
  id : edge_id_t;
  pid : process_id_t;
  src : loc_id_t;
  tgt : loc_id_t;
  event_id : event_id_t
}.

(** Modelled from the spec: the system holds the locations, stored by
    identifier, and the edges (tchecker/syncprod/system.hh is missing). *)
Record system_t : Set := mk_system {
  locations : list loc_t;
  edges : list edge_t
}.

(** Modelled from the spec: [system.is_committed(id)], the committed flag of
    the location [id]. *)
Definition is_committed (system : system_t) (l : loc_id_t) : bool :=
  match locations system !! l with
  | Some loc => loc_committed loc
  | None => false
  end.

(** Tuple of locations: indexed by process identifier. *)
Abbreviation vloc_t := (list loc_id_t) (only parsing).

(** Tuple of edges: indexed by process identifier, an edge identifier or
    none ([NO_EDGE]). *)
Abbreviation vedge_t := (list (option edge_id_t)) (only parsing).

Definition NO_EDGE : option edge_id_t := None.

(** [boost::dynamic_bitset<>] as the list of its bits. *)
Abbreviation dynamic_bitset := (list bool) (only parsing).

Definition test (b : dynamic_bitset) (i : nat) : bool := default false (b !! i).

Definition any (b : dynamic_bitset) : bool := existsb (fun x => x) b.

(** A joint edge: the range of the edges of the processes that move
    together ([outgoing_edges_value_t]). *)
Abbreviation outgoing_edges_value_t := (list edge_t) (only parsing).

(** Modelled from the spec: tchecker/syncprod/edges_iterators.hh is missing.
    The underlying iterator over the asynchronous and synchronized edges at a
    tuple of locations is the sequence of the joint edges it still has to
    deliver; it is past-the-end when the sequence is empty. *)
Abbreviation vloc_edges_iterator_t := (list outgoing_edges_value_t) (only parsing).

Class EdgesIterators := {
  vloc_edges : system_t -> vloc_t -> vloc_edges_iterator_t
}.

(** Modelled from the spec: syncprod.cc is missing; syncprod.hh declares the
    members below and documents them. [committed_processes(system, vloc)] is
    the set of processes that are committed in [vloc]: bit [p] tells whether
    the location of process [p] is committed. *)
Definition committed_processes (system : system_t) (vloc : vloc_t) : dynamic_bitset :=
  is_committed system <$> vloc.

(** The data members of [outgoing_edges_iterator_t], as syncprod.hh declares
    them. *)
Record outgoing_edges_iterator_t : Set := mk_outgoing_edges_iterator {
  _it : vloc_edges_iterator_t;
  _committed_processes : dynamic_bitset;
  _committed : bool
}.

(** Modelled from the spec: "checks if underlying iterator _it is
    past-the-end". *)
Definition at_end (this : outgoing_edges_iterator_t) : bool :=
  match _it this with
  | [] => true
  | _ :: _ => false
  end.

(** Modelled from the spec: "true if r involves a committed process, false
    otherwise". *)
Definition involves_committed_process (committed : dynamic_bitset)
    (r : outgoing_edges_value_t) : bool :=
  existsb (fun edge => test committed (pid edge)) r.

(** Modelled from the spec: "the iterator advances forward until it finds an
    enabled joint edge". *)
Fixpoint advance (committed : dynamic_bitset) (it : vloc_edges_iterator_t)
  : vloc_edges_iterator_t :=
  match it with
  | [] => []
  | r :: it' =>
      if involves_committed_process committed r then it
      else advance committed it'
  end.

(** Modelled from the spec: [advance_while_not_enabled()], "move iterator
    forward"; every joint edge is enabled when no process is committed. *)
Definition advance_while_not_enabled (this : outgoing_edges_iterator_t)
  : outgoing_edges_iterator_t :=
  if negb (_committed this) then this
  else mk_outgoing_edges_iterator
         (advance (_committed_processes this) (_it this))
         (_committed_processes this) (_committed this).

(** Modelled from the spec: constructor from the underlying iterator and the
    set of committed processes; [_committed] is the "flag: whether
    _committed_procs has a committed process or not". *)
Definition outgoing_edges_iterator_t_ctor (it : vloc_edges_iterator_t)
    (committed_processes : dynamic_bitset) : outgoing_edges_iterator_t :=
  advance_while_not_enabled
    (mk_outgoing_edges_iterator it committed_processes (any committed_processes)).

(** Modelled from the spec: [operator*], precondition: not [at_end()];
    "range of iterator over collection of edges pointed to by this". *)
Definition deref (this : outgoing_edges_iterator_t) : option outgoing_edges_value_t :=
  head (_it this).

(** Modelled from the spec: [operator++], precondition: not [at_end()]:
    "this points to next tuple of
    edges (if any) that moves a committed
    process if any, or next edge if no committed process". *)
Definition incr (this : outgoing_edges_iterator_t) : outgoing_edges_iterator_t :=
  advance_while_not_enabled
    (mk_outgoing_edges_iterator (tail (_it this))
       (_committed_processes this) (_committed this)).

(** Modelled from the spec: the values that a traversal of the range
    [for (; it != past_the_end; ++it) ... *it ...] goes through: until
    [at_end()], the value of [operator*] and then [operator++]. *)
Equations? elements (this : outgoing_edges_iterator_t) : list outgoing_edges_value_t
  by wf (length (_it this)) lt :=
  elements (mk_outgoing_edges_iterator [] _ _) := [];
  elements (mk_outgoing_edges_iterator (r :: it) cp c) :=
    r :: elements (incr (mk_outgoing_edges_iterator (r :: it) cp c)).
Proof.
  unfold incr, advance_while_not_enabled; simpl.
  destruct (negb c); simpl; [lia|].
  assert (Hle : forall l, (length (advance cp l) <= length l)%nat).
  { induction l as [|x l IH]; simpl; [lia|].
    destruct (involves_committed_process cp x); simpl; lia. }
  specialize (Hle it). lia.
Qed.

(** Modelled from the spec: [outgoing_edges(system, vloc)], "range of
    outgoing synchronized and asynchronous edges from vloc in system": from
    the iterator built at [vloc] with the committed processes of [vloc] to
    past-the-end. *)
Definition outgoing_edges `{EdgesIterators} (system : system_t) (vloc : vloc_t)
  : list outgoing_edges_value_t :=
  elements (outgoing_edges_iterator_t_ctor (vloc_edges system vloc)
              (committed_processes system vloc)).

(** Modelled from the spec: [next(system, vloc, vedge, edges)] of syncprod.cc
    is missing. From syncprod.hh: it throws [std::invalid_argument] "if the
    sizes of vloc and vedge do not match, or if the pid of an edge in edges is
    greater or equal to the size of vloc/vedge", returns
    [STATE_INCOMPATIBLE_EDGE] when a source location does not match [vloc],
    and otherwise updates the location of every process involved in [edges]
    to the target of its edge, [vedge] receiving the identifiers of the
    edges. The edges are taken in the order of the range; the result carries
    the status and the tuples as the call leaves them. *)
Fixpoint next_edges (size : nat) (vloc : vloc_t) (vedge : vedge_t)
    (edges : outgoing_edges_value_t) {struct edges}
  : outcome (state_status_t * vloc_t * vedge_t) :=
  match edges with
  | [] => Returns (STATE_OK, vloc, vedge)
  | edge :: edges' =>
      if (size <=? pid edge)%nat then Throws (invalid_argument "incompatible edges")
      else if bool_decide (vloc !! pid edge = Some (src edge)) then
        next_edges size (<[pid edge := tgt edge]> vloc)
                   (<[pid edge := Some (id edge)]> vedge) edges'
      else Returns (STATE_INCOMPATIBLE_EDGE, vloc, vedge)
  end.

(** Modelled from the spec: [next(system, vloc, vedge, edges)], see
    [next_edges]; [vedge] is first emptied. *)
Definition next (system : system_t) (vloc : vloc_t) (vedge : vedge_t)
    (edges : outgoing_edges_value_t)
  : outcome (state_status_t * vloc_t * vedge_t) :=
  let size := length vloc in
  if negb (size =? length vedge)%nat
  then Throws (invalid_argument "incompatible vloc and vedge")
  else next_edges size vloc (replicate size NO_EDGE) edges.

(** The source location of every edge is the location of its process. *)
Definition sources_match (vloc : vloc_t) (edges : outgoing_edges_value_t) : Prop :=
  Forall (fun edge => vloc !! pid edge = Some (src edge)) edges.

#[global] Instance sources_match_dec vloc edges : Decision (sources_match vloc edges).
Proof. unfold sources_match. apply _. Defined.

(** Modelled from the spec: [is_valid_final] of syncprod.cc is missing;
    syncprod.hh documents both overloads with "return true". *)
Definition is_valid_final (system : system_t) (vloc : vloc_t) : bool := true.

(** Modelled from the spec: a state of the synchronized product is its
    tuple of locations, a transition its tuple of edges (state.hh and
    transition.hh are missing). *)
Record state_t : Set := mk_state { vloc : vloc_t }.

Record transition_t : Set := mk_transition { vedge : vedge_t }.

(** Modelled from the spec: [is_valid_final(system, s)] on a state,
    documented with "return true". *)
Definition is_valid_final_state (system : system_t) (s : state_t) : bool :=
  is_valid_final system (vloc s).

Record syncprod_impl_t : Set := mk_syncprod_impl { _system : system_t }.

(** Modelled from the spec: [syncprod_impl_t::is_valid_final(s)], "true if a
    run ending in s is a valid run, false otherwise", on the state and the
    system of the implementation. *)
Definition syncprod_impl_t_is_valid_final (this : syncprod_impl_t) (s : state_t) : bool :=
  is_valid_final_state (_system this) s.

End syncprod.

(** ** Zone graph with reference clocks (src/refzg/refzg.cc) *)

Module refzg.

(** The types that refzg.cc takes from headers that are missing
    (tchecker/ta, tchecker/dbm, tchecker/refzg, tchecker/variables). *)
Class Types := {
  system_t : Type;
  vloc_t : Type;
  intval_t : Type;
  vedge_t : Type;
  clock_constraint_container_t : Type;
  clock_reset_container_t : Type;
  reference_clock_variables_t : Type;
  dbm_t : Type;
  semantics_t : Type;
  outgoing_edges_value_t : Type;
  variable_access_map_t : Type;
  dynamic_bitset : Type
}.

Section Records.
Context `{Types}.

(** [refzg::zone_t]: the reference clocks and the DBM over them. *)
Record zone_t : Type := mk_zone {
  reference_clock_variables : reference_clock_variables_t;
  dbm : dbm_t
}.

(** The objects that [tchecker::ta::next] receives by reference. *)
Record discrete_t : Type := mk_discrete {
  vloc : vloc_t;
  intval : intval_t;
  vedge : vedge_t;
  src_invariant : clock_constraint_container_t;
  guard : clock_constraint_container_t;
  reset : clock_reset_container_t;
  tgt_invariant : clock_constraint_container_t
}.

(** All the objects that [refzg::next] receives by reference. *)
Record store_t : Type := mk_store {
  discrete : discrete_t;
  zone : zone_t
}.

Record state_t : Type := mk_state {
  state_vloc : vloc_t;
  state_intval : intval_t;
  state_zone : zone_t
}.

End Records.

(** The functions that refzg.cc calls and that are defined in files that are
    missing. A function that updates its arguments in place returns them. *)
Class Operations `{Types} := {
  (* tchecker/ta/ta.hh *)
  ta_next : system_t -> discrete_t -> outgoing_edges_value_t
            -> outcome state_status_t * discrete_t;
  ta_delay_allowed : system_t -> reference_clock_variables_t -> vloc_t -> dynamic_bitset;
  ta_sync_refclocks : system_t -> reference_clock_variables_t -> vedge_t -> dynamic_bitset;
  processes_count : system_t -> nat;
  intvars_count : system_t -> nat;
  (* tchecker/refzg/semantics.hh: the virtual [semantics_t::next] *)
  semantics_next : semantics_t -> dbm_t -> reference_clock_variables_t
                   -> dynamic_bitset -> clock_constraint_container_t
                   -> dynamic_bitset -> clock_constraint_container_t
                   -> clock_reset_container_t
                   -> dynamic_bitset -> clock_constraint_container_t
                   -> integer_t -> state_status_t * dbm_t;
  (* tchecker/refzg/zone.hh *)
  is_empty : zone_t -> bool;
  is_synchronizable : zone_t -> bool;
  (* tchecker/variables/static_analysis.hh, tchecker/variables/clocks.hh *)
  variable_access : system_t -> variable_access_map_t;
  has_shared_variable : variable_access_map_t -> bool;
  refcount : reference_clock_variables_t -> nat
}.

Section Semantics.
Context `{Operations}.

(** [refzg::next(system, vloc, intval, zone, vedge, src_invariant, guard,
    reset, tgt_invariant, semantics, spread, edges)] *)
Definition next (system : system_t) (st : store_t) (semantics : semantics_t)
    (spread : integer_t) (edges : outgoing_edges_value_t)
  : outcome state_status_t * store_t :=
  let r := reference_clock_variables (zone st) in
  let src_delay_allowed := ta_delay_allowed system r (vloc (discrete st)) in
  let '(result, d) := ta_next system (discrete st) edges in
  let st := mk_store d (zone st) in
  match result with
  | Throws e => (Throws e, st)
  | Returns status =>
      if bool_decide (status <> STATE_OK) then (Returns status, st)
      else
        let tgt_delay_allowed := ta_delay_allowed system r (vloc (discrete st)) in
        let sync_refclocks := ta_sync_refclocks system r (vedge (discrete st)) in
        let rdbm := dbm (zone st) in
        let '(status, rdbm) :=
          semantics_next semantics rdbm r src_delay_allowed
            (src_invariant (discrete st)) sync_refclocks (guard (discrete st))
            (reset (discrete st)) tgt_delay_allowed
            (tgt_invariant (discrete st)) spread in
        (Returns status, mk_store (discrete st) (mk_zone r rdbm))
  end.

(** [refzg::is_valid_final(system, s)] *)
Definition is_valid_final (system : system_t) (s : state_t) : bool :=
  negb (is_empty (state_zone s)) && is_synchronizable (state_zone s).

(** Modelled from the spec: the pool allocators (tchecker/refzg/allocators.hh
    is missing) are block allocators that hand out slots on demand; building
    one records its arguments: the numbers of objects in a block, the
    capacities of the tuples, the reference clocks and the table size. *)
Record state_pool_allocator_t : Type := mk_state_pool_allocator {
  state_alloc_nb : nat;
  vloc_alloc_nb : nat;
  vloc_capacity : nat;
  intval_alloc_nb : nat;
  intval_capacity : nat;
  zone_alloc_nb : nat;
  zone_refclocks : reference_clock_variables_t;
  state_table_size : nat
}.

(** Modelled from the spec: the pool allocator of transitions, as above. *)
Record transition_pool_allocator_t : Type := mk_transition_pool_allocator {
  transition_alloc_nb : nat;
  vedge_alloc_nb : nat;
  vedge_capacity : nat;
  transition_table_size : nat
}.

Record refzg_impl_t : Type := mk_refzg_impl {
  _system : system_t;
  _r : reference_clock_variables_t;
  _semantics : semantics_t;
  _spread : integer_t;
  _state_allocator : state_pool_allocator_t;
  _transition_allocator : transition_pool_allocator_t
}.

(** [refzg_impl_t::refzg_impl_t(system, r, semantics, spread, block_size,
    table_size)] *)
Definition refzg_impl_t_ctor (system : system_t) (r : reference_clock_variables_t)
    (semantics : semantics_t) (spread : integer_t) (block_size table_size : nat)
  : outcome refzg_impl_t :=
  let this :=
    mk_refzg_impl system r semantics spread
      (mk_state_pool_allocator block_size block_size (processes_count system)
         block_size (intvars_count system) block_size r table_size)
      (mk_transition_pool_allocator block_size block_size
         (processes_count system) table_size) in
  let va_map := variable_access system in
  if has_shared_variable va_map && (1 <? refcount (_r this))%nat
  then Throws (invalid_argument
         "Zone graph with reference clocks is not sound for systems with shared variables")
  else Returns this.

(** [refzg_impl_t::is_valid_final(s)] *)
Definition refzg_impl_t_is_valid_final (this : refzg_impl_t) (s : state_t) : bool :=
  is_valid_final (_system this) s.

End Semantics.

End refzg.

(** ** Nodes of the covering reachability graph (src/tck-reach/zg-covreach.cc) *)

Module zg_covreach.

(** The components of a state are shared objects of the sharing zone graph
    the graph is built on ([sharing_zg_t]); [tchecker::ta::shared_hash_value]
    is declared in tchecker/ta/state.hh, which is missing. *)
Class States := {
  shared_vloc_t : Type;
  shared_intval_t : Type;
  shared_zone_t : Type
}.

Section Nodes.
Context `{States}.

(** [ta::state_t]: the discrete part of a state. *)
Record ta_state_t : Type := mk_ta_state {
  vloc_ptr : shared_vloc_t;
  intval_ptr : shared_intval_t
}.

(** [zg::state_t] extends [ta::state_t] with a zone. *)
Record zg_state_t : Type := mk_zg_state {
  as_ta_state : ta_state_t;
  zone_ptr : shared_zone_t
}.

(** [node_t]: [node_flags_t(initial, final)] and [node_zg_state_t(s)]. *)
Record node_t : Type := mk_node {
  initial : bool;
  final : bool;
  state : zg_state_t
}.

End Nodes.

Class Hashing `{States} := {
  ta_shared_hash_value : ta_state_t -> N
}.

(** [node_hash_t::operator()(n)]: the state of [n] is passed as a
    [ta::state_t]. *)
Definition node_hash `{Hashing} (n : node_t) : N :=
  ta_shared_hash_value (as_ta_state (state n)).

End zg_covreach.

(** ** Written variables and local declarations
       (src/statement/static_analysis.cc) *)

Module written_variables.
Import statement.

(** Modelled from the spec: [extract_lvalue_base_variable_ids]
    (tchecker/expression/static_analysis.hh) is missing. As documented at
    [extract_written_variables], it adds to the sets the base variables of a
    left-hand side (all the cells of an array whose offset is not static),
    which depend on the left-hand side alone. *)
Class LvalueBaseAnalysis `{EA : ExpressionAnalysis} := {
  lvalue_base_variables_of : typed_lvalue_expression_t -> var_sets
}.

Section Visitor.
Context `{LB : LvalueBaseAnalysis}.

(** Modelled from the spec: [extract_lvalue_base_variable_ids(expr, clocks,
    intvars, params)] adds the base variables of the lvalue [expr]. *)
Definition extract_lvalue_base_variable_ids (e : typed_lvalue_expression_t)
    (s : var_sets) : var_sets :=
  sets_union s (lvalue_base_variables_of e).

(** [extract_written_variables_visitor_t::visit] *)
Fixpoint visit (stmt : typed_statement_t) (s : var_sets) : var_sets :=
  match stmt with
  | typed_nop_statement_t => s
  | typed_assign_statement_t lvalue _ =>
      extract_lvalue_base_variable_ids lvalue s
  | typed_int_to_clock_assign_statement_t clock _ =>
      extract_lvalue_base_variable_ids clock s
  | typed_clock_to_clock_assign_statement_t lclock _ =>
      extract_lvalue_base_variable_ids lclock s
  | typed_sum_to_clock_assign_statement_t lclock _ _ =>
      extract_lvalue_base_variable_ids lclock s
  | typed_param_to_clock_assign_statement_t clock _ =>
      extract_lvalue_base_variable_ids clock s
  | typed_sequence_statement_t first second =>
      let s := visit first s in
      visit second s
  | typed_if_statement_t _ then_stmt else_stmt =>
      let s := visit then_stmt s in
      visit else_stmt s
  | typed_while_statement_t _ statement => visit statement s
  | typed_local_var_statement_t _ _ => s
  | typed_local_array_statement_t _ _ => s
  end.

(** [extract_written_variables(stmt, clocks, intvars, params)] *)
Definition extract_written_variables (stmt : typed_statement_t) (s : var_sets)
  : var_sets :=
  visit stmt s.

(** The left-hand sides of the assignments of a statement, at any depth, in
    program order. *)
Fixpoint assigned_lvalues (stmt : typed_statement_t)
  : list typed_lvalue_expression_t :=
  match stmt with
  | typed_assign_statement_t lvalue _ => [lvalue]
  | typed_int_to_clock_assign_statement_t clock _ => [clock]
  | typed_clock_to_clock_assign_statement_t lclock _ => [lclock]
  | typed_sum_to_clock_assign_statement_t lclock _ _ => [lclock]
  | typed_param_to_clock_assign_statement_t clock _ => [clock]
  | typed_sequence_statement_t first second =>
      assigned_lvalues first ++ assigned_lvalues second
  | typed_if_statement_t _ then_stmt else_stmt =>
      assigned_lvalues then_stmt ++ assigned_lvalues else_stmt
  | typed_while_statement_t _ statement => assigned_lvalues statement
  | _ => []
  end.

(** The union of the base variables of a list of left-hand sides. *)
Definition base_variables_of_all (lvalues : list typed_lvalue_expression_t)
  : var_sets :=
  foldr (fun lv acc => sets_union (lvalue_base_variables_of lv) acc)
        empty_sets lvalues.

End Visitor.

End written_variables.

Module local_declarations.
Import statement.

Section Visitor.
Context `{EA : ExpressionAnalysis}.

(** [local_declaration_visitor_t::visit]: the visitor state is the flag
    [_value]. Only sequences, local variables and local arrays act on it. *)
Fixpoint visit (stmt : typed_statement_t) (_value : bool) : bool :=
  match stmt with
  | typed_sequence_statement_t first second =>
      let _value := visit first _value in
      if negb _value then visit second _value else _value
  | typed_local_var_statement_t _ _ => true
  | typed_local_array_statement_t _ _ => true
  | typed_assign_statement_t _ _ => _value
  | typed_int_to_clock_assign_statement_t _ _ => _value
  | typed_clock_to_clock_assign_statement_t _ _ => _value
  | typed_sum_to_clock_assign_statement_t _ _ _ => _value
  | typed_param_to_clock_assign_statement_t _ _ => _value
  | typed_nop_statement_t => _value
  | typed_if_statement_t _ _ _ => _value
  | typed_while_statement_t _ _ => _value
  end.

(** [has_local_declarations(stmt)]: the visitor starts with [_value(false)]. *)
Definition has_local_declarations (stmt : typed_statement_t) : bool :=
  visit stmt false.

(** The statements that a statement is the sequence of. *)
Fixpoint sequence_items (stmt : typed_statement_t) : list typed_statement_t :=
  match stmt with
  | typed_sequence_statement_t first second =>
      sequence_items first ++ sequence_items second
  | _ => [stmt]
  end.

Definition is_local_declaration (stmt : typed_statement_t) : bool :=
  match stmt with
  | typed_local_var_statement_t _ _ => true
  | typed_local_array_statement_t _ _ => true
  | _ => false
  end.

End Visitor.

End local_declarations.

(** ** Parameters of a system (src/system/param.cc) *)

Module system_params.
Import variables.

(** [tchecker::system::attributes_t] (tchecker/system/attribute.hh) is
    missing: attributes are values of some type. The flattened size of the
    declared parameters, [size(tchecker::VK_FLATTENED)], belongs to the
    missing base class [array_variables_t]. *)
Class Attributes := {
  attributes_t : Type
}.

Class FlattenedSize `{V : ArrayVariables} := {
  flattened_size : parameters_t -> nat
}.

Section Params.
Context `{V : ArrayVariables} `{A : Attributes}.

(** The data members of [params_t]. *)
Record params_t : Type := mk_params {
  _parameters : parameters_t;
  _parameters_attr : list attributes_t
}.

(** [for (i = 0; i < size; ++i) _parameters_attr.emplace_back(attr);] *)
Fixpoint emplace_back_times (size : nat) (attr : attributes_t)
    (attrs : list attributes_t) : list attributes_t :=
  match size with
  | O => attrs
  | S size' => emplace_back_times size' attr (attrs ++ [attr])
  end.

(** [params_t::add_param(name, size, min, max, attr)] *)
Definition add_param (name : string) (size : nat) (min max : integer_t)
    (attr : attributes_t) (this : params_t) : outcome params_t :=
  let! (_, parameters) := declare name size min max (_parameters this) in
  Returns (mk_params parameters
             (emplace_back_times size attr (_parameters_attr this))).

(** [params_t::param_attributes(id)]: the second branch of the [match] is
    not reached, [id] being below the size of the vector. *)
Definition param_attributes (this : params_t) (id : param_id_t)
  : outcome attributes_t :=
  if (length (_parameters_attr this) <=? id)%nat
  then Throws (invalid_argument "Unknown integer variable identifier")
  else match _parameters_attr this !! id with
       | Some attr => Returns attr
       | None => Throws (invalid_argument "Unknown integer variable identifier")
       end.

(** The assertion that closes [add_param]. *)
Definition attributes_cover_parameters `{!FlattenedSize} (this : params_t) : Prop :=
  flattened_size (_parameters this) = length (_parameters_attr this).

End Params.

End system_params.

(** ** Output of a valuation of parameters (src/variables/params.cc) *)

Module params_output.

(** [operator<<] on [tchecker::integer_t] is the one of the standard
    library: the rendering of an integer is a parameter. *)
Class IntegerOutput := {
  integer_to_string : integer_t -> string
}.

Section Output.
Context `{IO : IntegerOutput}.

(** Modelled from the spec: [param_index_t] (tchecker/utils/index.hh) is
    missing; an index associates the identifiers [0 .. size()-1] with their
    names, [value(id)] being the name of [id]. A valuation is the array of
    its values; reading it out of its bounds is undefined ([None]). *)
Abbreviation param_index_t := (list string) (only parsing).
Abbreviation params_valuation_t := (list integer_t) (only parsing).

(** One round of the loop of [output], for the identifier [id]. *)
Definition output_step (index : param_index_t) (params_val : params_valuation_t)
    (os : option string) (id : param_id_t) : option string :=
  os ← os;
  name ← index !! id;
  value ← params_val !! id;
  let os := if (0 <? id)%nat then os +:+ "," else os in
  Some (os +:+ name +:+ "=" +:+ integer_to_string value).

(** [output(os, params_val, index)] *)
Definition output (os : string) (params_val : params_valuation_t)
    (index : param_index_t) : option string :=
  let size := length index in
  foldl (output_step index params_val) (Some os) (seq 0 size).

(** [to_string(params_val, index)]: [output] on an empty string stream. *)
Definition to_string (params_val : params_valuation_t) (index : param_index_t)
  : option string :=
  output "" params_val index.

(** The entry of a parameter, and entries separated by commas. *)
Definition entry (name : string) (value : integer_t) : string :=
  name +:+ "=" +:+ integer_to_string value.

Fixpoint comma_separated (entries : list string) : string :=
  match entries with
  | [] => ""
  | [e] => e
  | e :: entries' => e +:+ "," +:+ comma_separated entries'
  end.

(** What the loop has written after the entries of the identifiers from
    [id] on: each entry, preceded by a comma unless its identifier is 0. *)
Fixpoint written_from (id : nat) (entries : list string) : string :=
  match entries with
  | [] => ""
  | e :: entries' =>
      (if (0 <? id)%nat then "," else "") +:+ e +:+ written_from (S id) entries'
  end.

End Output.

End params_output.

(** ** Initial states and factory of the zone graph with reference clocks
       (src/refzg/refzg.cc) *)

Module refzg_factory.
Import refzg.

(** The objects that [tchecker::ta::initial] receives by reference. *)
Record initial_discrete_t `{Types} : Type := mk_initial_discrete {
  init_vloc : vloc_t;
  init_intval : intval_t;
  init_vedge : vedge_t;
  init_invariant : clock_constraint_container_t
}.

Arguments mk_initial_discrete {_} _ _ _ _.

(** The functions that [refzg::initial] and the factory call and that are
    defined in files that are missing, and the enumeration of the semantics
    (tchecker/refzg/semantics.hh). *)
Class InitialOperations `{Ops : Operations} := {
  initial_value_t : Type;
  flat_clock_variables_t : Type;
  semantics_type_t : Type;
  (* tchecker/ta/ta.hh *)
  ta_initial : system_t -> initial_discrete_t -> initial_value_t
               -> outcome state_status_t * initial_discrete_t;
  (* the virtual [semantics_t::initial] *)
  semantics_initial : semantics_t -> dbm_t -> reference_clock_variables_t
                      -> dynamic_bitset -> clock_constraint_container_t
                      -> integer_t -> state_status_t * dbm_t;
  semantics_factory : semantics_type_t -> outcome semantics_t;
  (* tchecker/variables/clocks.hh *)
  clock_variables_flattened : system_t -> flat_clock_variables_t;
  single_reference_clocks : flat_clock_variables_t -> nat -> reference_clock_variables_t;
  process_reference_clocks : variable_access_map_t -> flat_clock_variables_t -> nat
                             -> reference_clock_variables_t
}.

(** [enum reference_clock_variables_type_t] (tchecker/refzg/refzg.hh is
    missing): the two enumerators that refzg.cc names, and any other value,
    which the [default] label of the [switch] receives. *)
Inductive reference_clock_variables_type_t : Set :=
  | SINGLE_REFERENCE_CLOCKS
  | PROCESS_REFERENCE_CLOCKS
  | OTHER_REFERENCE_CLOCKS (value : Z).

Section Factory.
Context `{IOps : InitialOperations}.

(** [refzg::initial(system, vloc, intval, zone, vedge, invariant, semantics,
    spread, initial_range)] *)
Definition initial (system : system_t) (d : initial_discrete_t) (z : zone_t)
    (semantics : semantics_t) (spread : integer_t) (initial_range : initial_value_t)
  : outcome state_status_t * initial_discrete_t * zone_t :=
  let '(result, d) := ta_initial system d initial_range in
  match result with
  | Throws e => (Throws e, d, z)
  | Returns status =>
      if bool_decide (status <> STATE_OK) then (Returns status, d, z)
      else
        let r := reference_clock_variables z in
        let delay_allowed := ta_delay_allowed system r (init_vloc d) in
        let rdbm := dbm z in
        let '(status, rdbm) :=
          semantics_initial semantics rdbm r delay_allowed (init_invariant d) spread in
        (Returns status, d, mk_zone r rdbm)
  end.

(** [reference_clocks_factory(type, system)] *)
Definition reference_clocks_factory (type : reference_clock_variables_type_t)
    (system : system_t) : outcome reference_clock_variables_t :=
  match type with
  | SINGLE_REFERENCE_CLOCKS =>
      Returns (single_reference_clocks (clock_variables_flattened system)
                 (processes_count system))
  | PROCESS_REFERENCE_CLOCKS =>
      let va_map := variable_access system in
      Returns (process_reference_clocks va_map (clock_variables_flattened system)
                 (processes_count system))
  | OTHER_REFERENCE_CLOCKS _ =>
      Throws (invalid_argument "Unknown reference clock variables type")
  end.

(** [factory_generic<REFZG>(system, refclocks_type, semantics_type, spread,
    block_size, table_size)]. [REFZG] is [refzg_t] or [sharing_refzg_t],
    which are built from the arguments of [refzg_impl_t]'s constructor
    (tchecker/ts/ts.hh is missing): the result is the implementation. *)
Definition factory_generic (system : system_t)
    (refclocks_type : reference_clock_variables_type_t)
    (semantics_type : semantics_type_t) (spread : integer_t)
    (block_size table_size : nat) : outcome refzg_impl_t :=
  let! r := reference_clocks_factory refclocks_type system in
  let! semantics := semantics_factory semantics_type in
  refzg_impl_t_ctor system r semantics spread block_size table_size.

(** [factory] and [factory_sharing] *)
Definition factory := factory_generic.
Definition factory_sharing := factory_generic.

End Factory.

End refzg_factory.

(** ** Orders on the nodes of the covering reachability graph
       (src/tck-reach/zg-covreach.cc) *)

Module zg_covreach_order.
Import zg_covreach.

(** The comparisons of tchecker/zg/state.hh and tchecker/graph/node.hh, which
    are missing: the covering of states and the three-way lexical
    comparisons of states and of node flags (initial, final). *)
Class Comparisons `{St : States} := {
  zg_shared_is_le : zg_state_t -> zg_state_t -> bool;
  zg_lexical_cmp : zg_state_t -> zg_state_t -> Z;
  graph_lexical_cmp : bool * bool -> bool * bool -> Z
}.

Section Orders.
Context `{Cmp : Comparisons}.

(** The base sub-object [node_flags_t] of a node. *)
Definition node_flags (n : node_t) : bool * bool := (initial n, final n).

(** [node_le_t::operator()(n1, n2)] *)
Definition node_le (n1 n2 : node_t) : bool :=
  zg_shared_is_le (state n1) (state n2).

(** [node_lexical_less_t::operator()(n1, n2)] *)
Definition node_lexical_less (n1 n2 : node_t) : bool :=
  let state_cmp := zg_lexical_cmp (state n1) (state n2) in
  if negb (state_cmp =? 0) then state_cmp <? 0
  else graph_lexical_cmp (node_flags n1) (node_flags n2) <? 0.

(** A three-way comparison: the sign of [cmp x y] tells how [x] and [y] are
    ordered. *)
Record three_way {A : Type} (cmp : A -> A -> Z) : Prop := mk_three_way {
  three_way_sign : forall x y, cmp x y < 0 <-> 0 < cmp y x;
  three_way_trans : forall x y z, cmp x y <= 0 -> cmp y z <= 0 -> cmp x z <= 0
}.

End Orders.

End zg_covreach_order.

(** ** Concrete instances, used to run the definitions *)

Module examples.

(** Modelled from the spec: a registry of declared parameters in declaration
    order, in which a duplicate variable name is rejected. *)
Definition declared_names (vars : list (string * variables.param_info_t)) : list string :=
  fst <$> vars.

#[local] Instance registry : variables.ArrayVariables := {|
  variables.parameters_t := list (string * variables.param_info_t);
  variables.array_variables_declare name info vars :=
    if bool_decide (name ∈ declared_names vars)
    then Throws (invalid_argument "variable already declared")
    else Returns (length vars, vars ++ [(name, info)])
|}.

(** Expressions given by the variables that occur in them; an lvalue is a
    base variable and an offset expression. *)
#[local] Instance expressions : statement.ExpressionAnalysis := {|
  statement.typed_expression_t := statement.var_sets;
  statement.typed_lvalue_expression_t := statement.var_sets * statement.var_sets;
  statement.typed_var_expression_t := nat;
  statement.lvalue_as_expression lv := statement.sets_union (fst lv) (snd lv);
  statement.variables_of e := e;
  statement.lvalue_offset_variables_of lv := snd lv
|}.

Definition clock_expr (x : clock_id_t) : statement.var_sets :=
  statement.mk_var_sets {[x]} ∅ ∅.
Definition intvar_expr (i : intvar_id_t) : statement.var_sets :=
  statement.mk_var_sets ∅ {[i]} ∅.
Definition param_expr (p : param_id_t) : statement.var_sets :=
  statement.mk_var_sets ∅ ∅ {[p]}.

(** [x1 := i2 ; if (p3) then i0[i4] := x5 else nop] *)
Definition stmt1 : statement.typed_statement_t :=
  statement.typed_int_to_clock_assign_statement_t
    (clock_expr 1%nat, statement.empty_sets) (intvar_expr 2%nat).
Definition stmt2 : statement.typed_statement_t :=
  statement.typed_if_statement_t (param_expr 3%nat)
    (statement.typed_assign_statement_t
       (intvar_expr 0%nat, intvar_expr 4%nat) (clock_expr 5%nat))
    statement.typed_nop_statement_t.

(** A system of two processes: process 0 owns the locations 0 (committed)
    and 1, process 1 owns the locations 2 and 3. *)
Definition system1 : syncprod.system_t :=
  syncprod.mk_system
    [ syncprod.mk_loc 0 true false; syncprod.mk_loc 0 false false;
      syncprod.mk_loc 1 false false; syncprod.mk_loc 1 false false ]
    [ syncprod.mk_edge 0 0 0 1 0; syncprod.mk_edge 1 1 2 3 1;
      syncprod.mk_edge 2 0 1 0 2 ].

Definition edge_p0 : syncprod.edge_t := syncprod.mk_edge 0 0 0 1 0.
Definition edge_p1 : syncprod.edge_t := syncprod.mk_edge 1 1 2 3 1.
Definition edge_p0_back : syncprod.edge_t := syncprod.mk_edge 2 0 1 0 2.

(** Modelled from the spec: a system without synchronization vectors, where
    the joint edges at a tuple of locations are the asynchronous ones: "every
    outgoing edge e of every process p at vloc[p]", each on its own. *)
#[local] Instance asynchronous_edges : syncprod.EdgesIterators := {|
  syncprod.vloc_edges system vloc :=
    (fun e => [e])
      <$> List.filter
            (fun e => bool_decide (vloc !! syncprod.pid e = Some (syncprod.src e)))
            (syncprod.edges system)
|}.

(** A small instance of the interfaces of refzg.cc. A system is its number
    of processes and whether it has a shared variable; the discrete step
    increments the integer variable 0, bounded by 3; reference clocks are
    given by their number. *)
#[local] Instance refzg_types : refzg.Types := {|
  refzg.system_t := nat * bool;
  refzg.vloc_t := list nat;
  refzg.intval_t := list Z;
  refzg.vedge_t := list (option nat);
  refzg.clock_constraint_container_t := list (nat * nat * Z);
  refzg.clock_reset_container_t := list nat;
  refzg.reference_clock_variables_t := nat;
  refzg.dbm_t := list (list Z);
  refzg.semantics_t := unit;
  refzg.outgoing_edges_value_t := list syncprod.edge_t;
  refzg.variable_access_map_t := bool;
  refzg.dynamic_bitset := list bool
|}.

Definition counter_step (d : refzg.discrete_t) (edges : list syncprod.edge_t)
  : outcome state_status_t * refzg.discrete_t :=
  match refzg.intval d with
  | c :: rest =>
      if 3 <? c + 1 then (Returns STATE_INTVAR_VIOLATED, d)
      else (Returns STATE_OK,
            refzg.mk_discrete (refzg.vloc d) ((c + 1) :: rest)
              ((fun _ => None) <$> refzg.vedge d)
              (refzg.src_invariant d) (refzg.guard d) (refzg.reset d)
              (refzg.tgt_invariant d))
  | [] => (Throws (invalid_argument "no integer variable"), d)
  end.

(** Modelled from the spec, on a DBM over the reference clocks alone with
    non-strict bounds, entry [(i,j)] bounding [r_i - r_j]: the zone is empty
    when an entry of the diagonal is negative, and it is synchronizable when
    the valuation with all reference clocks equal satisfies every bound. *)
Definition diagonal (m : list (list Z)) : list Z :=
  imap (fun i row => default 0 (row !! i)) m.

Definition dbm_is_empty (m : list (list Z)) : bool :=
  existsb (fun b => b <? 0) (diagonal m).

Definition dbm_is_synchronizable (m : list (list Z)) : bool :=
  forallb (forallb (fun b => 0 <=? b)) m.

Definition shift_bounds (spread : Z) (m : list (list Z)) : list (list Z) :=
  (fun row : list Z => (fun b => b + spread) <$> row) <$> m.

#[local] Instance refzg_operations : refzg.Operations := {|
  refzg.ta_next system d edges := counter_step d edges;
  refzg.ta_delay_allowed system r vloc := replicate r true;
  refzg.ta_sync_refclocks system r vedge := replicate r false;
  refzg.processes_count system := fst system;
  refzg.intvars_count system := 1%nat;
  refzg.semantics_next sem rdbm r src_delay src_inv sync guard reset tgt_delay tgt_inv spread :=
    (STATE_OK, shift_bounds spread rdbm);
  refzg.is_empty z := dbm_is_empty (refzg.dbm z);
  refzg.is_synchronizable z := dbm_is_synchronizable (refzg.dbm z);
  refzg.variable_access system := snd system;
  refzg.has_shared_variable va_map := va_map;
  refzg.refcount r := r
|}.

Definition system_plain : refzg.system_t := (2%nat, false).
Definition system_shared : refzg.system_t := (2%nat, true).
Definition one_refclock : refzg.reference_clock_variables_t := 1%nat.
Definition two_refclocks : refzg.reference_clock_variables_t := 2%nat.
Definition semantics1 : refzg.semantics_t := tt.
Definition no_edges : refzg.outgoing_edges_value_t := [].

Definition store1 (c : Z) : refzg.store_t :=
  refzg.mk_store (refzg.mk_discrete [0; 2]%nat [c] [None; None] [] [] [] [])
    (refzg.mk_zone 2%nat [[0; 1]; [2; 0]]).

(** Two processes whose reference clocks can meet, and two that cannot:
    [r_0 - r_1 <= -1]. *)
Definition state_sync : refzg.state_t :=
  refzg.mk_state [0; 2]%nat [0] (refzg.mk_zone 2%nat [[0; 1]; [2; 0]]).
Definition state_not_sync : refzg.state_t :=
  refzg.mk_state [0; 2]%nat [0] (refzg.mk_zone 2%nat [[0; -1]; [2; 0]]).
Definition state_empty : refzg.state_t :=
  refzg.mk_state [0; 2]%nat [0] (refzg.mk_zone 2%nat [[-1; 0]; [0; 0]]).

(** Shared components given by their contents, and a hash of the discrete
    part in the manner of [boost::hash_combine]. *)
#[local] Instance covreach_states : zg_covreach.States := {|
  zg_covreach.shared_vloc_t := list nat;
  zg_covreach.shared_intval_t := list Z;
  zg_covreach.shared_zone_t := list (list Z)
|}.

Definition combine (h x : N) : N := ((31 * h + x) mod 2 ^ 64)%N.

#[local] Instance covreach_hashing : zg_covreach.Hashing := {|
  zg_covreach.ta_shared_hash_value s :=
    foldl combine
      (foldl combine 0%N (N.of_nat <$> zg_covreach.vloc_ptr s))
      (Z.to_N <$> zg_covreach.intval_ptr s)
|}.

Definition node1 : zg_covreach.node_t :=
  zg_covreach.mk_node true false
    (zg_covreach.mk_zg_state (zg_covreach.mk_ta_state [0; 2]%nat [1]) [[0; 1]; [2; 0]]).
Definition node2 : zg_covreach.node_t :=
  zg_covreach.mk_node false true
    (zg_covreach.mk_zg_state (zg_covreach.mk_ta_state [0; 2]%nat [1]) [[0; 5]; [0; 0]]).

End examples.

(** ** Further instances, for the functions around those above *)

Module more_examples.

#[local] Existing Instance examples.registry.
#[local] Existing Instance examples.expressions.
#[local] Existing Instance examples.refzg_types.
#[local] Existing Instance examples.refzg_operations.
#[local] Existing Instance examples.covreach_states.
#[local] Existing Instance examples.covreach_hashing.

(** The base variables of an lvalue of [examples.expressions]: its first
    component. *)
Definition lvalue_base (lv : statement.var_sets * statement.var_sets)
  : statement.var_sets := fst lv.

#[local] Instance lvalue_bases
  : written_variables.LvalueBaseAnalysis (EA := examples.expressions) :=
  written_variables.Build_LvalueBaseAnalysis examples.expressions lvalue_base.

(** [local i6 = p3 ; x1 := i2] and [if (p3) then (local array of size i4)
    else nop]. *)
Definition stmt_local : statement.typed_statement_t (EA := examples.expressions) :=
  statement.typed_sequence_statement_t
    (statement.typed_local_var_statement_t 6%nat (examples.param_expr 3))
    examples.stmt1.
Definition stmt_nested_local : statement.typed_statement_t (EA := examples.expressions) :=
  statement.typed_if_statement_t (examples.param_expr 3)
    (statement.typed_local_array_statement_t 7%nat (examples.intvar_expr 4))
    statement.typed_nop_statement_t.

(** Attributes as strings; the flattened size of a registry of parameters
    is the sum of the sizes of the declared arrays. *)
#[local] Instance string_attributes : system_params.Attributes := {|
  system_params.attributes_t := string
|}.

Definition registry_flattened_size
    (vars : list (string * variables.param_info_t)) : nat :=
  foldr (fun entry n => (variables.size (snd entry) + n)%nat) 0%nat vars.

#[local] Instance registry_size
  : system_params.FlattenedSize (V := examples.registry) :=
  system_params.Build_FlattenedSize examples.registry registry_flattened_size.

Definition params0 : system_params.params_t (V := examples.registry) :=
  system_params.mk_params (V := examples.registry) [] [].

Definition range_attr : system_params.attributes_t := "range"%string.
Definition registry_k : variables.parameters_t :=
  [("k"%string, variables.mk_param_info (variables.mk_size_info 2) 0 3 None)].
Definition params_after_k : system_params.params_t :=
  system_params.mk_params registry_k [range_attr; range_attr].

(** Integers rendered in decimal. *)
#[local] Instance decimal_output : params_output.IntegerOutput := {|
  params_output.integer_to_string := pretty
|}.

(** Initial states and factory on top of [examples.refzg_operations]: the
    semantics are known ([true]) or not, a single reference clock or one for
    every process. *)
Definition initial_step (d : refzg_factory.initial_discrete_t)
    (init : list nat)
  : outcome state_status_t * refzg_factory.initial_discrete_t :=
  if bool_decide (length (refzg_factory.init_vloc d) = length init)
  then
    let d' :=
      refzg_factory.mk_initial_discrete init (refzg_factory.init_intval d)
        ((fun _ => None) <$> refzg_factory.init_vedge d) [] in
    if forallb (fun v => 0 <=? v) (refzg_factory.init_intval d)
    then (Returns STATE_OK, d')
    else (Returns STATE_INTVAR_VIOLATED, d')
  else (Throws (invalid_argument "incompatible sizes"), d).

Definition known_semantics (known : bool) : outcome unit :=
  if known then Returns tt else Throws (invalid_argument "Unknown semantics").

#[local] Instance refzg_initial_operations
  : refzg_factory.InitialOperations (Ops := examples.refzg_operations) := {|
  refzg_factory.initial_value_t := list nat;
  refzg_factory.flat_clock_variables_t := nat;
  refzg_factory.semantics_type_t := bool;
  refzg_factory.ta_initial system d init := initial_step d init;
  refzg_factory.semantics_initial sem rdbm r delay_allowed invariant spread :=
    (STATE_OK, examples.shift_bounds spread rdbm);
  refzg_factory.semantics_factory := known_semantics;
  refzg_factory.clock_variables_flattened system := 2%nat;
  refzg_factory.single_reference_clocks flat n := 1%nat;
  refzg_factory.process_reference_clocks va_map flat n := n
|}.

Definition initial_discrete1 : refzg_factory.initial_discrete_t :=
  refzg_factory.mk_initial_discrete [9; 9]%nat [0] [Some 0%nat; None] [].
Definition initial_discrete_negative : refzg_factory.initial_discrete_t :=
  refzg_factory.mk_initial_discrete [9; 9]%nat [-1] [Some 0%nat; None] [].
Definition initial_discrete_after : refzg_factory.initial_discrete_t :=
  refzg_factory.mk_initial_discrete [0; 2]%nat [-1] [None; None] [].
Definition zone1 : refzg.zone_t := refzg.mk_zone 2%nat [[0; 1]; [2; 0]].
Definition known : refzg_factory.semantics_type_t := true.
Definition unknown : refzg_factory.semantics_type_t := false.
Definition initial_ok : refzg_factory.initial_value_t := [0; 2]%nat.
Definition initial_short : refzg_factory.initial_value_t := [0]%nat.

(** States compared by their integer valuation read as a number, flags by
    their rank; a state covers another when the discrete parts are equal and
    the zones are pointwise below. *)
Definition intval_key (intval : list Z) : Z :=
  foldl (fun acc v => 10 * acc + v) 0 intval.

Definition state_key (s : zg_covreach.zg_state_t (H := examples.covreach_states)) : Z :=
  intval_key (zg_covreach.intval_ptr (zg_covreach.as_ta_state s)).

Definition flags_rank (f : bool * bool) : Z :=
  (if fst f then 2 else 0) + (if snd f then 1 else 0).

Definition zone_le (z1 z2 : list (list Z)) : bool :=
  bool_decide (Forall2 (Forall2 Z.le) z1 z2).

Definition discrete_eqb (vloc1 vloc2 : list nat) (intval1 intval2 : list Z) : bool :=
  bool_decide (vloc1 = vloc2) && bool_decide (intval1 = intval2).

Definition state_le (s1 s2 : zg_covreach.zg_state_t (H := examples.covreach_states)) : bool :=
  discrete_eqb (zg_covreach.vloc_ptr (zg_covreach.as_ta_state s1))
    (zg_covreach.vloc_ptr (zg_covreach.as_ta_state s2))
    (zg_covreach.intval_ptr (zg_covreach.as_ta_state s1))
    (zg_covreach.intval_ptr (zg_covreach.as_ta_state s2))
  && zone_le (zg_covreach.zone_ptr s1) (zg_covreach.zone_ptr s2).

(** A node with the discrete part of [examples.node1] and a larger zone. *)
Definition node_above : zg_covreach.node_t :=
  zg_covreach.mk_node false false
    (zg_covreach.mk_zg_state (zg_covreach.mk_ta_state [0; 2]%nat [1]) [[0; 5]; [2; 0]]).

#[local] Instance covreach_comparisons
  : zg_covreach_order.Comparisons (St := examples.covreach_states) := {|
  zg_covreach_order.zg_shared_is_le := state_le;
  zg_covreach_order.zg_lexical_cmp s1 s2 := state_key s1 - state_key s2;
  zg_covreach_order.graph_lexical_cmp f1 f2 := flags_rank f1 - flags_rank f2
|}.

End more_examples.

(** * Properties *)

(** ** Parameters *)

Section ParamInfo.
Import variables.

Lemma size_info_t_ctor_pos (size : nat) :
  (0 < size)%nat -> size_info_t_ctor size = Returns (mk_size_info size).
Proof.
  intros Hpos. unfold size_info_t_ctor.
  destruct (Nat.eqb_spec size 0) as [->|_]; [lia | reflexivity].
Qed.

Lemma size_info_t_ctor_cases (size : nat) :
  size_info_t_ctor size = Returns (mk_size_info size)
  \/ throws_invalid_argument (size_info_t_ctor size).
Proof.
  unfold size_info_t_ctor, throws_invalid_argument.
  destruct (size =? 0)%nat; eauto.
Qed.

Lemma bounds_check_false (min max : integer_t) :
  0 <= min <= max -> (min <? 0) || (min >? max) = false.
Proof.
  intros [Hmin Hmax]. apply orb_false_intro.
  - apply Z.ltb_ge, Hmin.
  - rewrite Z.gtb_ltb. apply Z.ltb_ge, Hmax.
Qed.

Lemma bounds_check_true (min max : integer_t) :
  min < 0 \/ min > max -> (min <? 0) || (min >? max) = true.
Proof.
  intros [Hmin|Hmax]; apply orb_true_iff.
  - left. apply Z.ltb_lt, Hmin.
  - right. rewrite Z.gtb_ltb. apply Z.ltb_lt. lia.
Qed.

Lemma param_info_t_ctor_out_of_range (size : nat) (min max : integer_t) :
  min < 0 \/ min > max -> throws_invalid_argument (param_info_t_ctor size min max).
Proof.
  intros Hbad. unfold param_info_t_ctor.
  destruct (size_info_t_ctor_cases size) as [-> | [what ->]]; simpl.
  - rewrite (bounds_check_true _ _ Hbad). eexists; reflexivity.
  - eexists; reflexivity.
Qed.

Lemma param_info_t_ctor_in_range (size : nat) (min max : integer_t) :
  (0 < size)%nat -> 0 <= min <= max ->
  param_info_t_ctor size min max
  = Returns (mk_param_info (mk_size_info size) min max None).
Proof.
  intros Hsize Hbounds. unfold param_info_t_ctor.
  rewrite (size_info_t_ctor_pos _ Hsize). simpl.
  rewrite (bounds_check_false _ _ Hbounds). reflexivity.
Qed.

Lemma declare_out_of_range `{ArrayVariables} (name : string) (size : nat)
    (min max : integer_t) (this : parameters_t) :
  min < 0 \/ min > max -> throws_invalid_argument (declare name size min max this).
Proof.
  intros Hbad. unfold declare.
  destruct (param_info_t_ctor_out_of_range size min max Hbad) as [what ->].
  eexists; reflexivity.
Qed.

(** C7, as stated, fails at [param_info_t(0, 0, 1)]: the bounds satisfy
    [0 <= min <= max], and the construction throws, because the base
    sub-object rejects the array size 0. *)
Lemma param_info_in_range_size_zero_throws :
  0 <= 0 <= 1
  /\ param_info_t_ctor 0 0 1 = Throws (invalid_argument "expecting size > 0")
  /\ ~ (exists info, param_info_t_ctor 0 0 1 = Returns info
                     /\ variables.min info = 0 /\ variables.max info = 1).
Proof.
  split; [lia|]. split; [reflexivity|].
  intros (info & Hctor & _). vm_compute in Hctor. discriminate Hctor.
Qed.

(** C7 (amended): a declaration with out-of-range bounds, [min < 0] or
    [min > max], is rejected: the construction of [param_info_t], and with it
    [parameters_t::declare], throws [std::invalid_argument]; and for every
    size [> 0] and bounds [0 <= min <= max] the construction succeeds with
    [min() = min] and [max() = max]. *)
Theorem param_info_bounds_checked (size : nat) (min max : integer_t) :
  (min < 0 \/ min > max ->
     throws_invalid_argument (param_info_t_ctor size min max)
     /\ forall (V : ArrayVariables) (name : string) (this : parameters_t),
          throws_invalid_argument (declare name size min max this))
  /\ ((0 < size)%nat -> 0 <= min <= max ->
        exists info, param_info_t_ctor size min max = Returns info
                     /\ variables.min info = min /\ variables.max info = max).
Proof.
  split.
  - intros Hbad. split.
    + apply param_info_t_ctor_out_of_range, Hbad.
    + intros V name this. apply declare_out_of_range, Hbad.
  - intros Hsize Hbounds. eexists. split.
    + apply param_info_t_ctor_in_range; assumption.
    + split; reflexivity.
Qed.

Lemma param_info_bounds_checked_witness :
  (throws_invalid_argument (param_info_t_ctor 1 (-1) 5)
   /\ throws_invalid_argument
        (declare (V := examples.registry) "k" 1 7 2 []))
  /\ exists info, param_info_t_ctor 2 0 3 = Returns info
                  /\ variables.min info = 0 /\ variables.max info = 3.
Proof.
  split.
  - split.
    + apply (proj1 (param_info_bounds_checked 1 (-1) 5)). left. lia.
    + apply (proj1 (param_info_bounds_checked 1 7 2)). right. lia.
  - apply (proj2 (param_info_bounds_checked 2 0 3)); lia.
Defined.

End ParamInfo.

(** ** Read variables of a statement *)

Section ReadVariables.
Import statement.
Context `{EA : ExpressionAnalysis}.

Lemma var_sets_eq (a b : var_sets) :
  clocks a = clocks b -> intvars a = intvars b -> params a = params b -> a = b.
Proof. destruct a, b; simpl; intros -> -> ->; reflexivity. Qed.

Ltac sets_crush :=
  unfold added, extract_read_variables, extract_variables,
    extract_lvalue_offset_variable_ids, sets_subseteq, sets_union,
    sets_difference, empty_sets in *;
  simpl in *;
  try (apply var_sets_eq; simpl);
  repeat split; set_unfold; intros; tauto.

(** Membership in a finite set is decidable: goals that need a case
    distinction on a set [R]. *)
Ltac sets_crush_by_cases R :=
  apply set_eq; intros ?x; destruct (decide (x ∈ R)); set_unfold; tauto.

Lemma sets_union_assoc (a b c : var_sets) :
  sets_union (sets_union a b) c = sets_union a (sets_union b c).
Proof. sets_crush. Qed.

Lemma sets_union_empty_l (a : var_sets) : sets_union empty_sets a = a.
Proof. sets_crush. Qed.

(** The visitor only ever inserts: what it adds does not depend on the sets
    it starts from. *)
Lemma visit_union (stmt : typed_statement_t) (s : var_sets) :
  visit stmt s = sets_union s (visit stmt empty_sets).
Proof.
  revert s.
  induction stmt as [ | lv rv | c v | lc rc | lc rc v | c v
                      | s1 IH1 s2 IH2 | cond st IHt se IHe | cond st IHs
                      | x v | x v ]; intros s; simpl.
  1-6, 10-11: sets_crush.
  - rewrite (IH2 (visit s1 s)), (IH2 (visit s1 empty_sets)), (IH1 s).
    sets_crush.
  - rewrite (IHe (visit st _)), (IHe (visit st (extract_variables cond empty_sets))).
    rewrite (IHt (extract_variables cond s)), (IHt (extract_variables cond empty_sets)).
    sets_crush.
  - rewrite (IHs (extract_variables cond s)), (IHs (extract_variables cond empty_sets)).
    sets_crush.
Qed.

Lemma extract_read_variables_fold (stmt : typed_statement_t) (s : var_sets) :
  extract_read_variables stmt s
  = sets_union s (extract_read_variables stmt empty_sets).
Proof. apply visit_union. Qed.

Lemma extract_read_variables_monotone (stmt : typed_statement_t) (s : var_sets) :
  sets_subseteq s (extract_read_variables stmt s).
Proof. rewrite extract_read_variables_fold. sets_crush. Qed.

Lemma extract_read_variables_sequence_from_empty (s1 s2 : typed_statement_t) :
  extract_read_variables (typed_sequence_statement_t s1 s2) empty_sets
  = sets_union (extract_read_variables s1 empty_sets)
               (extract_read_variables s2 empty_sets).
Proof.
  unfold extract_read_variables. simpl. apply visit_union.
Qed.

(** In the run itself the second statement starts from the sets the first
    one has left; the additions of the two calls still make up the additions
    of the sequence. *)
Lemma added_sequence_in_order (s1 s2 : typed_statement_t) (s : var_sets) :
  added (typed_sequence_statement_t s1 s2) s
  = sets_union (added s1 s) (added s2 (extract_read_variables s1 s)).
Proof.
  unfold added, extract_read_variables. simpl.
  rewrite (visit_union s2 (visit s1 s)), (visit_union s1 s).
  unfold sets_union, sets_difference. apply var_sets_eq; simpl.
  - sets_crush_by_cases (clocks (visit s1 empty_sets)).
  - sets_crush_by_cases (intvars (visit s1 empty_sets)).
  - sets_crush_by_cases (params (visit s1 empty_sets)).
Qed.

(** C8: [extract_read_variables] is a pure fold over the statement tree: for
    a sequence statement [s1; s2] the identifiers (clocks, integer variables,
    parameters) it adds to the sets it is given are the union of those added
    by [extract_read_variables] on [s1] and on [s2], and for every statement
    the sets it is given are included in the sets it leaves. *)
Theorem extract_read_variables_sequence_union
    (s1 s2 : typed_statement_t) (s : var_sets) :
  added (typed_sequence_statement_t s1 s2) s = sets_union (added s1 s) (added s2 s)
  /\ extract_read_variables (typed_sequence_statement_t s1 s2) empty_sets
     = sets_union (extract_read_variables s1 empty_sets)
                  (extract_read_variables s2 empty_sets)
  /\ forall stmt : typed_statement_t, sets_subseteq s (extract_read_variables stmt s).
Proof.
  split; [|split].
  - unfold added, extract_read_variables. simpl.
    rewrite (visit_union s2 (visit s1 s)), (visit_union s1 s), (visit_union s2 s).
    sets_crush.
  - apply extract_read_variables_sequence_from_empty.
  - intros stmt. apply extract_read_variables_monotone.
Qed.

End ReadVariables.

#[local] Existing Instance examples.expressions.

Lemma extract_read_variables_sequence_union_witness :
  statement.added
    (statement.typed_sequence_statement_t examples.stmt1 examples.stmt2)
    (examples.clock_expr 7)
  = statement.sets_union
      (statement.added examples.stmt1 (examples.clock_expr 7))
      (statement.added examples.stmt2 (examples.clock_expr 7))
  /\ statement.extract_read_variables
       (statement.typed_sequence_statement_t examples.stmt1 examples.stmt2)
       statement.empty_sets
     = statement.sets_union
         (statement.extract_read_variables examples.stmt1 statement.empty_sets)
         (statement.extract_read_variables examples.stmt2 statement.empty_sets)
  /\ forall stmt : statement.typed_statement_t,
       statement.sets_subseteq (examples.clock_expr 7)
         (statement.extract_read_variables stmt (examples.clock_expr 7)).
Proof.
  exact (extract_read_variables_sequence_union examples.stmt1 examples.stmt2
           (examples.clock_expr 7)).
Defined.

Example extract_read_variables_sequence_run :
  statement.extract_read_variables
    (statement.typed_sequence_statement_t examples.stmt1 examples.stmt2)
    (statement.mk_var_sets {[7%nat]} ∅ ∅)
  = statement.mk_var_sets {[5%nat; 7%nat]} {[2%nat; 4%nat]} {[3%nat]}.
Proof.
  apply var_sets_eq; vm_compute; reflexivity.
Qed.

(** ** Synchronized product *)

Section CommittedFilter.
Import syncprod.

Lemma elements_no_committed (it : vloc_edges_iterator_t) (cp : dynamic_bitset) :
  elements (mk_outgoing_edges_iterator it cp false) = it.
Proof.
  induction it as [|r it IH]; simp elements; [reflexivity|].
  unfold incr, advance_while_not_enabled. simpl. rewrite IH. reflexivity.
Qed.

Lemma elements_committed (it : vloc_edges_iterator_t) (cp : dynamic_bitset) :
  elements (mk_outgoing_edges_iterator (advance cp it) cp true)
  = List.filter (involves_committed_process cp) it.
Proof.
  induction it as [|r it IH]; simpl; simp elements; [reflexivity|].
  destruct (involves_committed_process cp r) eqn:Hr; [|exact IH].
  simp elements. unfold incr, advance_while_not_enabled. simpl.
  rewrite IH. reflexivity.
Qed.

Lemma at_end_deref (this : outgoing_edges_iterator_t) :
  at_end this = true <-> deref this = None.
Proof.
  unfold at_end, deref. destruct (_it this); simpl; split; congruence.
Qed.

(** The traversal as the loop runs it: stop at the end, otherwise take the
    value pointed to and increment. *)
Lemma elements_loop (this : outgoing_edges_iterator_t) :
  elements this
  = if at_end this then []
    else match deref this with
         | Some r => r :: elements (incr this)
         | None => []
         end.
Proof.
  destruct this as [[|r it] cp c]; simp elements; reflexivity.
Qed.

(** What a traversal of the range yields, in order. *)
Lemma elements_ctor (it : vloc_edges_iterator_t) (cp : dynamic_bitset) :
  elements (outgoing_edges_iterator_t_ctor it cp)
  = if any cp then List.filter (involves_committed_process cp) it else it.
Proof.
  unfold outgoing_edges_iterator_t_ctor, advance_while_not_enabled. simpl.
  destruct (any cp); simpl.
  - apply elements_committed.
  - apply elements_no_committed.
Qed.

Lemma test_committed_processes (system : system_t) (vloc : vloc_t) (p : process_id_t) :
  test (committed_processes system vloc) p = true
  <-> exists l, vloc !! p = Some l /\ is_committed system l = true.
Proof.
  unfold test, committed_processes. rewrite list_lookup_fmap.
  destruct (vloc !! p) as [l|]; simpl; split.
  - intros Hc. exists l. split; [reflexivity | exact Hc].
  - intros (l' & Heq & Hc). congruence.
  - discriminate.
  - intros (l' & Heq & _). discriminate.
Qed.

Lemma any_committed_processes (system : system_t) (vloc : vloc_t) :
  any (committed_processes system vloc) = true
  <-> exists p l, vloc !! p = Some l /\ is_committed system l = true.
Proof.
  unfold any. rewrite existsb_exists. split.
  - intros (b & Hin & ->).
    apply list_elem_of_In, list_elem_of_lookup in Hin. destruct Hin as [p Hp].
    exists p. apply test_committed_processes. unfold test. rewrite Hp. reflexivity.
  - intros (p & Hp). apply test_committed_processes in Hp. unfold test in Hp.
    destruct (committed_processes system vloc !! p) as [b|] eqn:Hb; [|discriminate].
    simpl in Hp. subst b. exists true. split; [|reflexivity].
    apply list_elem_of_In, list_elem_of_lookup. exists p. exact Hb.
Qed.

Lemma involves_committed_process_spec (system : system_t) (vloc : vloc_t)
    (r : outgoing_edges_value_t) :
  involves_committed_process (committed_processes system vloc) r = true
  <-> exists edge l, edge ∈ r /\ vloc !! pid edge = Some l
                     /\ is_committed system l = true.
Proof.
  unfold involves_committed_process. rewrite existsb_exists. split.
  - intros (edge & Hin & Ht). apply test_committed_processes in Ht.
    destruct Ht as (l & Hl & Hc). exists edge, l.
    split; [apply list_elem_of_In, Hin | split; assumption].
  - intros (edge & l & Hin & Hl & Hc). exists edge.
    split; [apply list_elem_of_In, Hin|].
    apply test_committed_processes. exists l. split; assumption.
Qed.

Context `{EI : EdgesIterators}.

Lemma outgoing_edges_eq (system : system_t) (vloc : vloc_t) :
  outgoing_edges system vloc
  = if any (committed_processes system vloc)
    then List.filter (involves_committed_process (committed_processes system vloc))
           (vloc_edges system vloc)
    else vloc_edges system vloc.
Proof. apply elements_ctor. Qed.

(** C1: the committed filter of the outgoing edges of the synchronized
    product. If at least one location of [vloc] is committed, every joint
    edge that the iterator yields (a joint edge at [vloc]) has an edge of a
    process whose location in [vloc] is committed; if no location of [vloc]
    is committed, the iterator yields all the joint edges at [vloc],
    unfiltered. *)
Theorem outgoing_edges_committed_filter (system : system_t) (vloc : vloc_t) :
  ((exists p l, vloc !! p = Some l /\ is_committed system l = true) ->
     forall r, r ∈ outgoing_edges system vloc ->
       r ∈ vloc_edges system vloc
       /\ exists edge l, edge ∈ r /\ vloc !! pid edge = Some l
                          /\ is_committed system l = true)
  /\ ((forall p l, vloc !! p = Some l -> is_committed system l = false) ->
        outgoing_edges system vloc = vloc_edges system vloc).
Proof.
  rewrite outgoing_edges_eq. split.
  - intros Hc r Hr. apply any_committed_processes in Hc. rewrite Hc in Hr.
    apply list_elem_of_In, filter_In in Hr. destruct Hr as [Hin Hinv].
    split; [apply list_elem_of_In, Hin|].
    apply involves_committed_process_spec, Hinv.
  - intros Hnone.
    destruct (any (committed_processes system vloc)) eqn:Hany; [|reflexivity].
    apply any_committed_processes in Hany. destruct Hany as (p & l & Hl & Hc).
    rewrite (Hnone p l Hl) in Hc. discriminate.
Qed.

(** With a committed location, no joint edge that moves a committed process
    is lost either. *)
Lemma outgoing_edges_committed_complete (system : system_t) (vloc : vloc_t)
    (r : outgoing_edges_value_t) :
  (exists p l, vloc !! p = Some l /\ is_committed system l = true) ->
  r ∈ vloc_edges system vloc ->
  (exists edge l, edge ∈ r /\ vloc !! pid edge = Some l
                  /\ is_committed system l = true) ->
  r ∈ outgoing_edges system vloc.
Proof.
  intros Hc Hin Hinv. rewrite outgoing_edges_eq.
  apply any_committed_processes in Hc. rewrite Hc.
  apply list_elem_of_In, filter_In. split; [apply list_elem_of_In, Hin|].
  apply involves_committed_process_spec, Hinv.
Qed.

End CommittedFilter.

Section Step.
Import syncprod.

Lemma sources_match_insert (vloc : vloc_t) (edge : edge_t)
    (edges : outgoing_edges_value_t) (l : loc_id_t) :
  pid edge ∉ pid <$> edges ->
  sources_match (<[pid edge := l]> vloc) edges <-> sources_match vloc edges.
Proof.
  intros Hfresh. unfold sources_match. rewrite !Forall_forall.
  split; intros Hall e He.
  - rewrite <- (Hall e He). symmetry. apply list_lookup_insert_ne.
    intros Heq. apply Hfresh. rewrite Heq. apply list_elem_of_fmap_2, He.
  - rewrite <- (Hall e He). apply list_lookup_insert_ne.
    intros Heq. apply Hfresh. rewrite Heq. apply list_elem_of_fmap_2, He.
Qed.

Lemma next_edges_status (edges : outgoing_edges_value_t) :
  forall (size : nat) (vloc : vloc_t) (vedge : vedge_t),
    length vloc = size ->
    (forall edge, edge ∈ edges -> pid edge < size)%nat ->
    NoDup (pid <$> edges) ->
    exists vloc' vedge',
      next_edges size vloc vedge edges
      = Returns (if decide (sources_match vloc edges)
                 then STATE_OK else STATE_INCOMPATIBLE_EDGE, vloc', vedge').
Proof.
  induction edges as [|edge edges IH]; intros size vloc vedge Hlen Hpid Hnodup.
  - simpl. exists vloc, vedge.
    destruct (decide (sources_match vloc [])) as [_|Hno]; [reflexivity|].
    exfalso. apply Hno. constructor.
  - simpl. rewrite fmap_cons in Hnodup.
    apply NoDup_cons in Hnodup. destruct Hnodup as [Hfresh Hnodup].
    assert (Hlt : (pid edge < size)%nat) by (apply Hpid; left).
    destruct (Nat.leb_spec size (pid edge)) as [Hge|_]; [lia|].
    destruct (bool_decide_reflect (vloc !! pid edge = Some (src edge))) as [Hsrc|Hsrc].
    + destruct (IH size (<[pid edge := tgt edge]> vloc)
                  (<[pid edge := Some (id edge)]> vedge)) as (vloc' & vedge' & Heq).
      * rewrite length_insert. exact Hlen.
      * intros e He. apply Hpid. right. exact He.
      * exact Hnodup.
      * exists vloc', vedge'. rewrite Heq. f_equal. f_equal. f_equal.
        destruct (decide (sources_match (<[pid edge := tgt edge]> vloc) edges)) as [Hm|Hm];
          destruct (decide (sources_match vloc (edge :: edges))) as [Hm'|Hm'];
          try reflexivity; exfalso.
        -- apply Hm'. constructor; [exact Hsrc|].
           apply (sources_match_insert vloc edge edges (tgt edge) Hfresh), Hm.
        -- apply Hm. apply (sources_match_insert vloc edge edges (tgt edge) Hfresh).
           unfold sources_match in Hm'. apply Forall_cons in Hm'. apply Hm'.
    + exists vloc, vedge.
      destruct (decide (sources_match vloc (edge :: edges))) as [Hm|_]; [|reflexivity].
      exfalso. apply Hsrc. unfold sources_match in Hm.
      apply Forall_cons in Hm. apply Hm.
Qed.

Lemma next_edges_ok (edges : outgoing_edges_value_t) :
  forall (size : nat) (vloc vloc' : vloc_t) (vedge vedge' : vedge_t),
    next_edges size vloc vedge edges = Returns (STATE_OK, vloc', vedge') ->
    length vloc = size ->
    (length vloc' = length vloc
     /\ forall p, p ∉ pid <$> edges -> vloc' !! p = vloc !! p)
    /\ (NoDup (pid <$> edges) ->
        forall edge, edge ∈ edges ->
          vloc !! pid edge = Some (src edge) /\ vloc' !! pid edge = Some (tgt edge)).
Proof.
  induction edges as [|edge edges IH]; intros size vloc vloc' vedge vedge' Hnext Hlen.
  - simpl in Hnext. injection Hnext as <- <-.
    split; [split; [reflexivity | intros; reflexivity]|].
    intros _ e He. inversion He.
  - simpl in Hnext.
    destruct (Nat.leb_spec size (pid edge)) as [|Hlt]; [discriminate|].
    destruct (bool_decide_reflect (vloc !! pid edge = Some (src edge))) as [Hsrc|];
      [|discriminate].
    apply IH in Hnext; [|rewrite length_insert; exact Hlen].
    destruct Hnext as [[Hlen' Hframe] Hmoved].
    rewrite length_insert in Hlen'.
    split; [split; [exact Hlen'|]|].
    + intros p Hp. rewrite fmap_cons in Hp. apply not_elem_of_cons in Hp.
      destruct Hp as [Hne Hp]. rewrite (Hframe p Hp).
      apply list_lookup_insert_ne. congruence.
    + intros Hnodup e He. rewrite fmap_cons in Hnodup.
      apply NoDup_cons in Hnodup. destruct Hnodup as [Hfresh Hnodup].
      apply elem_of_cons in He. destruct He as [->|He].
      * split; [exact Hsrc|]. rewrite (Hframe _ Hfresh).
        apply list_lookup_insert_eq. lia.
      * assert (Hne : pid edge <> pid e).
        { intros Heq. apply Hfresh. rewrite Heq. apply list_elem_of_fmap_2, He. }
        destruct (Hmoved Hnodup e He) as [Hs Ht].
        rewrite list_lookup_insert_ne in Hs by exact Hne.
        split; assumption.
Qed.

(** C4: for a joint edge (at most one edge for a process) given to [next]
    with tuples of compatible sizes ([vloc] and [vedge] of the same size, the
    process of each edge below that size), [next] returns, as an ordinary
    value, [STATE_OK] if the source location of every edge is the location of
    its process in [vloc], and [STATE_INCOMPATIBLE_EDGE] otherwise. *)
Theorem next_returns_status (system : system_t) (vloc : vloc_t) (vedge : vedge_t)
    (edges : outgoing_edges_value_t) :
  length vloc = length vedge ->
  (forall edge, edge ∈ edges -> pid edge < length vloc)%nat ->
  NoDup (pid <$> edges) ->
  exists vloc' vedge',
    next system vloc vedge edges
    = Returns (if decide (sources_match vloc edges)
               then STATE_OK else STATE_INCOMPATIBLE_EDGE, vloc', vedge').
Proof.
  intros Hlen Hpid Hnodup. unfold next.
  rewrite <- Hlen, Nat.eqb_refl. simpl.
  apply next_edges_status; [reflexivity | exact Hpid | exact Hnodup].
Qed.

Lemma next_returns_status_witness :
  (exists vloc' vedge',
     next examples.system1 [0; 2]%nat [None; None] [examples.edge_p0; examples.edge_p1]
     = Returns (STATE_OK, vloc', vedge'))
  /\ (exists vloc' vedge',
        next examples.system1 [0; 2]%nat [None; None] [examples.edge_p0_back]
        = Returns (STATE_INCOMPATIBLE_EDGE, vloc', vedge')).
Proof.
  split.
  - apply (next_returns_status examples.system1 [0; 2]%nat [None; None]
             [examples.edge_p0; examples.edge_p1]).
    + reflexivity.
    + apply Forall_forall. repeat constructor.
    + apply (bool_decide_unpack _). vm_compute. exact I.
  - apply (next_returns_status examples.system1 [0; 2]%nat [None; None]
             [examples.edge_p0_back]).
    + reflexivity.
    + apply Forall_forall. repeat constructor.
    + apply (bool_decide_unpack _). vm_compute. exact I.
Defined.

(** C5: when a step of the synchronized product succeeds ([STATE_OK]), the
    location of every process that takes no part in the joint edge is
    unchanged (and the tuple keeps its size), and each process that takes
    part in the joint edge (at most one edge for a process) has moved from
    the source to the target location of its edge. *)
Theorem next_ok_moves_participants (system : system_t) (vloc vloc' : vloc_t)
    (vedge vedge' : vedge_t) (edges : outgoing_edges_value_t) :
  next system vloc vedge edges = Returns (STATE_OK, vloc', vedge') ->
  (length vloc' = length vloc
   /\ forall p, p ∉ pid <$> edges -> vloc' !! p = vloc !! p)
  /\ (NoDup (pid <$> edges) ->
      forall edge, edge ∈ edges ->
        vloc !! pid edge = Some (src edge) /\ vloc' !! pid edge = Some (tgt edge)).
Proof.
  unfold next. intros Hnext.
  destruct (length vloc =? length vedge)%nat; simpl in Hnext; [|discriminate].
  apply next_edges_ok in Hnext; [exact Hnext | reflexivity].
Qed.

Lemma next_ok_moves_participants_witness :
  (length [1; 3]%nat = length [0; 2]%nat
   /\ forall p, p ∉ pid <$> [examples.edge_p0; examples.edge_p1] ->
                 [1; 3]%nat !! p = [0; 2]%nat !! p)
  /\ (NoDup (pid <$> [examples.edge_p0; examples.edge_p1]) ->
      forall edge, edge ∈ [examples.edge_p0; examples.edge_p1] ->
        [0; 2]%nat !! pid edge = Some (src edge)
        /\ [1; 3]%nat !! pid edge = Some (tgt edge)).
Proof.
  apply (next_ok_moves_participants examples.system1 [0; 2]%nat [1; 3]%nat
           [None; None] [Some 0; Some 1]%nat [examples.edge_p0; examples.edge_p1]).
  vm_compute. reflexivity.
Defined.

(** A process that takes no part keeps its location, here process 1. *)
Example next_frame_run :
  next examples.system1 [0; 2]%nat [None; None] [examples.edge_p0]
  = Returns (STATE_OK, [1; 2]%nat, [Some 0%nat; None]).
Proof. vm_compute. reflexivity. Qed.

(** C9: in the synchronized product without zones every state is a valid
    final state: [is_valid_final] returns true for every system and every
    tuple of locations, for every state, and through [syncprod_impl_t]. *)
Theorem is_valid_final_true (system : system_t) :
  (forall vloc : vloc_t, is_valid_final system vloc = true)
  /\ (forall s : state_t, is_valid_final_state system s = true)
  /\ (forall (this : syncprod_impl_t) (s : state_t),
        syncprod_impl_t_is_valid_final this s = true).
Proof.
  split; [|split]; intros; reflexivity.
Qed.

End Step.

Lemma is_valid_final_true_witness :
  syncprod.is_valid_final examples.system1 [0; 2]%nat = true
  /\ syncprod.is_valid_final_state examples.system1 (syncprod.mk_state [1; 3]%nat) = true
  /\ syncprod.syncprod_impl_t_is_valid_final
       (syncprod.mk_syncprod_impl examples.system1) (syncprod.mk_state []) = true.
Proof.
  destruct (is_valid_final_true examples.system1) as (Hvloc & Hstate & Himpl).
  split; [apply Hvloc | split; [apply Hstate | apply Himpl]].
Defined.

#[local] Existing Instance examples.asynchronous_edges.

Lemma outgoing_edges_committed_filter_witness :
  (forall r, r ∈ syncprod.outgoing_edges examples.system1 [0; 2]%nat ->
     r ∈ syncprod.vloc_edges examples.system1 [0; 2]%nat
     /\ exists edge l, edge ∈ r /\ [0; 2]%nat !! syncprod.pid edge = Some l
                        /\ syncprod.is_committed examples.system1 l = true)
  /\ syncprod.outgoing_edges examples.system1 [1; 2]%nat
     = syncprod.vloc_edges examples.system1 [1; 2]%nat.
Proof.
  split.
  - apply (proj1 (outgoing_edges_committed_filter examples.system1 [0; 2]%nat)).
    exists 0%nat, 0%nat. split; reflexivity.
  - apply (proj2 (outgoing_edges_committed_filter examples.system1 [1; 2]%nat)).
    intros [|[|p]] l Hl; vm_compute in Hl; [| |discriminate];
      injection Hl as <-; reflexivity.
Defined.

(** At [(0, 2)] process 0 is committed: of the two joint edges only the one
    of process 0 is delivered; at [(1, 2)] both are. *)
Example outgoing_edges_run :
  syncprod.vloc_edges examples.system1 [0; 2]%nat = [[examples.edge_p0]; [examples.edge_p1]]
  /\ syncprod.outgoing_edges examples.system1 [0; 2]%nat = [[examples.edge_p0]]
  /\ syncprod.outgoing_edges examples.system1 [1; 2]%nat
     = [[examples.edge_p1]; [examples.edge_p0_back]].
Proof.
  rewrite !outgoing_edges_eq. vm_compute. repeat split.
Qed.

(** ** Zone graph with reference clocks *)

Section RefZoneGraph.
Import refzg.
Context `{Ops : Operations}.

Lemma next_discrete_failure (system : system_t) (st : store_t)
    (semantics : semantics_t) (spread : integer_t) (edges : outgoing_edges_value_t)
    (status : state_status_t) (d : discrete_t) :
  ta_next system (discrete st) edges = (Returns status, d) ->
  status <> STATE_OK ->
  next system st semantics spread edges = (Returns status, mk_store d (zone st)).
Proof.
  intros Hta Hko. unfold next. rewrite Hta.
  rewrite bool_decide_eq_true_2 by exact Hko. reflexivity.
Qed.

Lemma next_discrete_throw (system : system_t) (st : store_t)
    (semantics : semantics_t) (spread : integer_t) (edges : outgoing_edges_value_t)
    (e : exception) (d : discrete_t) :
  ta_next system (discrete st) edges = (Throws e, d) ->
  next system st semantics spread edges = (Throws e, mk_store d (zone st)).
Proof. intros Hta. unfold next. rewrite Hta. reflexivity. Qed.

Lemma next_discrete_ok (system : system_t) (st : store_t)
    (semantics : semantics_t) (spread : integer_t) (edges : outgoing_edges_value_t)
    (d : discrete_t) :
  ta_next system (discrete st) edges = (Returns STATE_OK, d) ->
  let r := reference_clock_variables (zone st) in
  let step :=
    semantics_next semantics (dbm (zone st)) r
      (ta_delay_allowed system r (vloc (discrete st))) (src_invariant d)
      (ta_sync_refclocks system r (vedge d)) (guard d) (reset d)
      (ta_delay_allowed system r (vloc d)) (tgt_invariant d) spread in
  next system st semantics spread edges
  = (Returns (fst step), mk_store d (mk_zone r (snd step))).
Proof.
  intros Hta r step. unfold next. rewrite Hta.
  rewrite bool_decide_eq_false_2 by (intros Hne; apply Hne; reflexivity).
  simpl. fold r. fold step. destruct step as [status rdbm]. reflexivity.
Qed.

(** C3: in a step of the semantics the discrete step comes first. If it
    returns a status other than [STATE_OK] (or throws), [next] returns that
    status and the zone, its DBM included, is as it was before the call; the
    only operation on the DBM, [semantics.next], runs when the discrete step
    has returned [STATE_OK], on the DBM as it was before the call and on the
    constraints, resets and tuples that the discrete step has produced. *)
Theorem next_discrete_step_first (system : system_t) (st : store_t)
    (semantics : semantics_t) (spread : integer_t) (edges : outgoing_edges_value_t)
    (result : outcome state_status_t) (d : discrete_t) :
  ta_next system (discrete st) edges = (result, d) ->
  (forall status, result = Returns status -> status <> STATE_OK ->
     fst (next system st semantics spread edges) = Returns status
     /\ zone (snd (next system st semantics spread edges)) = zone st
     /\ discrete (snd (next system st semantics spread edges)) = d)
  /\ (forall e, result = Throws e ->
        next system st semantics spread edges = (Throws e, mk_store d (zone st)))
  /\ (result = Returns STATE_OK ->
        let r := reference_clock_variables (zone st) in
        let step :=
          semantics_next semantics (dbm (zone st)) r
            (ta_delay_allowed system r (vloc (discrete st))) (src_invariant d)
            (ta_sync_refclocks system r (vedge d)) (guard d) (reset d)
            (ta_delay_allowed system r (vloc d)) (tgt_invariant d) spread in
        next system st semantics spread edges
        = (Returns (fst step), mk_store d (mk_zone r (snd step)))).
Proof.
  intros Hta. split; [|split].
  - intros status -> Hko.
    rewrite (next_discrete_failure _ _ _ _ _ _ _ Hta Hko). simpl. auto.
  - intros e ->. apply next_discrete_throw, Hta.
  - intros ->. apply next_discrete_ok, Hta.
Qed.

(** C2: [is_valid_final] holds of a state exactly when its zone is not empty
    and is synchronizable, also through [refzg_impl_t]. *)
Theorem is_valid_final_nonempty_synchronizable (system : system_t) (s : state_t) :
  (is_valid_final system s = true
   <-> is_empty (state_zone s) = false /\ is_synchronizable (state_zone s) = true)
  /\ forall this : refzg_impl_t,
       refzg_impl_t_is_valid_final this s = true
       <-> is_empty (state_zone s) = false /\ is_synchronizable (state_zone s) = true.
Proof.
  assert (Hiff : forall sys, is_valid_final sys s = true
            <-> is_empty (state_zone s) = false
                /\ is_synchronizable (state_zone s) = true).
  { intros sys. unfold is_valid_final.
    rewrite andb_true_iff, negb_true_iff. reflexivity. }
  split; [apply Hiff | intros this; apply Hiff].
Qed.

(** C10: the construction of [refzg_impl_t] over a system with a shared
    variable and more than one reference clock throws
    [std::invalid_argument]; with a single reference clock, or without a
    shared variable, it succeeds and the members hold the arguments. *)
Theorem refzg_impl_t_ctor_shared_variables (system : system_t)
    (r : reference_clock_variables_t) (semantics : semantics_t)
    (spread : integer_t) (block_size table_size : nat) :
  (has_shared_variable (variable_access system) = true -> (1 < refcount r)%nat ->
     throws_invalid_argument
       (refzg_impl_t_ctor system r semantics spread block_size table_size))
  /\ (refcount r = 1%nat \/ has_shared_variable (variable_access system) = false ->
        exists this,
          refzg_impl_t_ctor system r semantics spread block_size table_size
          = Returns this
          /\ _system this = system /\ _r this = r
          /\ _semantics this = semantics /\ _spread this = spread).
Proof.
  unfold refzg_impl_t_ctor. simpl. split.
  - intros Hshared Hcount. rewrite Hshared.
    destruct (Nat.ltb_spec 1 (refcount r)) as [_|Hle]; [|lia].
    simpl. eexists; reflexivity.
  - intros Hok.
    assert (Hcond : has_shared_variable (variable_access system)
                    && (1 <? refcount r)%nat = false).
    { destruct Hok as [Hone | Hnone].
      - rewrite Hone. apply andb_false_r.
      - rewrite Hnone. reflexivity. }
    rewrite Hcond. eexists. split; [reflexivity|]. simpl. auto.
Qed.

End RefZoneGraph.

#[local] Existing Instance examples.refzg_types.
#[local] Existing Instance examples.refzg_operations.

Lemma next_discrete_step_first_witness :
  fst (refzg.next examples.system_plain (examples.store1 3) examples.semantics1 1 examples.no_edges) = Returns STATE_INTVAR_VIOLATED
  /\ refzg.zone (snd (refzg.next examples.system_plain (examples.store1 3) examples.semantics1 1 examples.no_edges))
     = refzg.zone (examples.store1 3)
  /\ refzg.discrete (snd (refzg.next examples.system_plain (examples.store1 3) examples.semantics1 1 examples.no_edges))
     = refzg.discrete (examples.store1 3).
Proof.
  refine (proj1 (next_discrete_step_first examples.system_plain
                   (examples.store1 3) examples.semantics1 1 examples.no_edges
                   (Returns STATE_INTVAR_VIOLATED)
                   (refzg.discrete (examples.store1 3)) _)
            STATE_INTVAR_VIOLATED eq_refl _).
  - vm_compute. reflexivity.
  - discriminate.
Defined.

(** A step whose discrete part succeeds: the counter moves from 1 to 2 and
    the DBM goes through [semantics.next]. *)
Example next_ok_run :
  refzg.next examples.system_plain (examples.store1 1) examples.semantics1 1 examples.no_edges
  = (Returns STATE_OK,
     refzg.mk_store (refzg.mk_discrete [0; 2]%nat [2] [None; None] [] [] [] [])
       (refzg.mk_zone 2%nat [[1; 2]; [3; 1]])).
Proof. vm_compute. reflexivity. Qed.

(** Two processes with a reference clock each: the state is a valid final
    state when the reference clocks can be made equal, and is not when they
    cannot or when the zone is empty. *)
Example is_valid_final_run :
  refzg.is_valid_final examples.system_plain examples.state_sync = true
  /\ refzg.is_valid_final examples.system_plain examples.state_not_sync = false
  /\ refzg.is_valid_final examples.system_plain examples.state_empty = false.
Proof. vm_compute. repeat split. Qed.

Lemma is_valid_final_nonempty_synchronizable_witness :
  refzg.is_valid_final examples.system_plain examples.state_sync = true
  /\ refzg.is_valid_final examples.system_plain examples.state_not_sync <> true
  /\ refzg.is_valid_final examples.system_plain examples.state_empty <> true.
Proof.
  split; [|split].
  - apply (proj1 (is_valid_final_nonempty_synchronizable
                    examples.system_plain examples.state_sync)).
    split; reflexivity.
  - intros Hvalid.
    apply (proj1 (is_valid_final_nonempty_synchronizable
                    examples.system_plain examples.state_not_sync)) in Hvalid.
    destruct Hvalid as [_ Hsync]. discriminate Hsync.
  - intros Hvalid.
    apply (proj1 (is_valid_final_nonempty_synchronizable
                    examples.system_plain examples.state_empty)) in Hvalid.
    destruct Hvalid as [Hempty _]. discriminate Hempty.
Defined.

Lemma refzg_impl_t_ctor_shared_variables_witness :
  throws_invalid_argument (refzg.refzg_impl_t_ctor examples.system_shared examples.two_refclocks examples.semantics1 0 8 16)
  /\ (exists this,
        refzg.refzg_impl_t_ctor examples.system_shared examples.one_refclock examples.semantics1 0 8 16 = Returns this
        /\ refzg._system this = examples.system_shared
        /\ refzg._r this = examples.one_refclock
        /\ refzg._semantics this = examples.semantics1 /\ refzg._spread this = 0)
  /\ (exists this,
        refzg.refzg_impl_t_ctor examples.system_plain examples.two_refclocks examples.semantics1 0 8 16 = Returns this
        /\ refzg._system this = examples.system_plain
        /\ refzg._r this = examples.two_refclocks
        /\ refzg._semantics this = examples.semantics1 /\ refzg._spread this = 0).
Proof.
  split; [|split].
  - apply (proj1 (refzg_impl_t_ctor_shared_variables examples.system_shared examples.two_refclocks examples.semantics1 0 8 16)).
    + reflexivity.
    + vm_compute. lia.
  - apply (proj2 (refzg_impl_t_ctor_shared_variables examples.system_shared examples.one_refclock examples.semantics1 0 8 16)).
    left. reflexivity.
  - apply (proj2 (refzg_impl_t_ctor_shared_variables examples.system_plain examples.two_refclocks examples.semantics1 0 8 16)).
    right. reflexivity.
Defined.

(** ** Nodes of the covering reachability graph *)

Section NodeHash.
Import zg_covreach.
Context `{Hsh : Hashing}.

(** C6: two nodes whose states have the same discrete part, the same tuple
    of locations and the same integer valuation, have the same hash, whatever
    their zones (and their flags): the hash of a node is the hash of the
    discrete part of its state. *)
Theorem node_hash_discrete_part (n1 n2 : node_t) :
  vloc_ptr (as_ta_state (state n1)) = vloc_ptr (as_ta_state (state n2)) ->
  intval_ptr (as_ta_state (state n1)) = intval_ptr (as_ta_state (state n2)) ->
  node_hash n1 = node_hash n2.
Proof.
  unfold node_hash. intros Hvloc Hintval.
  destruct (as_ta_state (state n1)) as [v1 i1], (as_ta_state (state n2)) as [v2 i2].
  simpl in Hvloc, Hintval. subst v2 i2. reflexivity.
Qed.

End NodeHash.

#[local] Existing Instance examples.covreach_states.
#[local] Existing Instance examples.covreach_hashing.

Lemma node_hash_discrete_part_witness :
  zg_covreach.zone_ptr (zg_covreach.state examples.node1)
  <> zg_covreach.zone_ptr (zg_covreach.state examples.node2)
  /\ zg_covreach.node_hash examples.node1 = zg_covreach.node_hash examples.node2.
Proof.
  split; [discriminate|].
  apply (node_hash_discrete_part examples.node1 examples.node2); reflexivity.
Defined.

(** * Further properties of the code around the functions above *)

(** ** Written variables, local declarations *)

Section StatementAnalysis.
Import statement.
Context `{LB : written_variables.LvalueBaseAnalysis}.

Ltac sets_tauto :=
  unfold written_variables.extract_written_variables,
    written_variables.extract_lvalue_base_variable_ids, extract_read_variables,
    sets_subseteq, sets_union, sets_difference, empty_sets in *;
  simpl in *;
  try (apply var_sets_eq; simpl);
  repeat split; set_unfold; intros; tauto.

Lemma written_visit_union (stmt : typed_statement_t) (s : var_sets) :
  written_variables.visit stmt s
  = sets_union s (written_variables.visit stmt empty_sets).
Proof.
  revert s.
  induction stmt as [ | lv rv | c v | lc rc | lc rc v | c v
                      | s1 IH1 s2 IH2 | cond st IHt se IHe | cond st IHs
                      | x v | x v ]; intros s; simpl.
  1-6, 10-11: sets_tauto.
  - rewrite (IH2 (written_variables.visit s1 s)),
      (IH2 (written_variables.visit s1 empty_sets)), (IH1 s).
    sets_tauto.
  - rewrite (IHe (written_variables.visit st s)),
      (IHe (written_variables.visit st empty_sets)), (IHt s).
    sets_tauto.
  - apply IHs.
Qed.

Lemma base_variables_of_all_app (l1 l2 : list typed_lvalue_expression_t) :
  written_variables.base_variables_of_all (l1 ++ l2)
  = sets_union (written_variables.base_variables_of_all l1)
               (written_variables.base_variables_of_all l2).
Proof.
  induction l1 as [|lv l1 IH]; simpl.
  - unfold written_variables.base_variables_of_all at 2. simpl. sets_tauto.
  - unfold written_variables.base_variables_of_all in *. simpl. rewrite IH.
    sets_tauto.
Qed.

Lemma written_from_empty (stmt : typed_statement_t) :
  written_variables.visit stmt empty_sets
  = written_variables.base_variables_of_all (written_variables.assigned_lvalues stmt).
Proof.
  induction stmt as [ | lv rv | c v | lc rc | lc rc v | c v
                      | s1 IH1 s2 IH2 | cond st IHt se IHe | cond st IHs
                      | x v | x v ]; simpl.
  1, 10-11: reflexivity.
  1-5: unfold written_variables.base_variables_of_all; simpl; sets_tauto.
  - rewrite written_visit_union, IH1, IH2, base_variables_of_all_app. reflexivity.
  - rewrite written_visit_union, IHt, IHe, base_variables_of_all_app. reflexivity.
  - exact IHs.
Qed.

(** X1: the written variables that [extract_written_variables] leaves are
    the sets it was given together with the base variables of the left-hand
    sides of the assignments of the statement, at any depth (branches of an
    [if], body of a [while]); conditions, right-hand sides and local
    declarations add nothing, and nothing is removed. *)
Theorem extract_written_variables_assignments (stmt : typed_statement_t)
    (s : var_sets) :
  written_variables.extract_written_variables stmt s
  = sets_union s
      (written_variables.base_variables_of_all
         (written_variables.assigned_lvalues stmt))
  /\ sets_subseteq s (written_variables.extract_written_variables stmt s).
Proof.
  assert (Heq : written_variables.extract_written_variables stmt s
                = sets_union s
                    (written_variables.base_variables_of_all
                       (written_variables.assigned_lvalues stmt))).
  { unfold written_variables.extract_written_variables.
    rewrite written_visit_union, written_from_empty. reflexivity. }
  split; [exact Heq|]. rewrite Heq. sets_tauto.
Qed.

(** X2: running [extract_read_variables] a second time on its own result
    adds nothing, and the reads of two statements can be collected in either
    order. *)
Theorem extract_read_variables_idempotent_commutes (s1 s2 : typed_statement_t)
    (s : var_sets) :
  extract_read_variables s1 (extract_read_variables s1 s)
  = extract_read_variables s1 s
  /\ extract_read_variables s2 (extract_read_variables s1 s)
     = extract_read_variables s1 (extract_read_variables s2 s).
Proof.
  unfold extract_read_variables. split.
  - rewrite (visit_union s1 (visit s1 s)), (visit_union s1 s). sets_tauto.
  - rewrite (visit_union s2 (visit s1 s)), (visit_union s1 (visit s2 s)),
      (visit_union s1 s), (visit_union s2 s).
    sets_tauto.
Qed.

Lemma local_visit_or (stmt : typed_statement_t) (v : bool) :
  local_declarations.visit stmt v = v || local_declarations.visit stmt false.
Proof.
  revert v.
  induction stmt as [ | lv rv | c v' | lc rc | lc rc v' | c v'
                      | s1 IH1 s2 IH2 | cond st IHt se IHe | cond st IHs
                      | x v' | x v' ]; intros v; simpl;
    try (destruct v; reflexivity).
  rewrite (IH1 v). destruct v; simpl; [reflexivity|].
  destruct (local_declarations.visit s1 false); reflexivity.
Qed.

Lemma has_local_declarations_sequence (s1 s2 : typed_statement_t) :
  local_declarations.has_local_declarations (typed_sequence_statement_t s1 s2)
  = local_declarations.has_local_declarations s1
    || local_declarations.has_local_declarations s2.
Proof.
  unfold local_declarations.has_local_declarations. simpl.
  destruct (local_declarations.visit s1 false); reflexivity.
Qed.

(** X3: [has_local_declarations] tells exactly whether one of the statements
    that the statement is the sequence of is a local variable or a local
    array; it does not look into the branches of an [if] or the body of a
    [while]: following a statement by an [if] or a [while], whatever they
    declare, does not change the answer. *)
Theorem has_local_declarations_top_level (stmt : typed_statement_t) :
  local_declarations.has_local_declarations stmt
  = existsb local_declarations.is_local_declaration
      (local_declarations.sequence_items stmt)
  /\ (forall cond then_stmt else_stmt,
        local_declarations.has_local_declarations
          (typed_sequence_statement_t stmt
             (typed_if_statement_t cond then_stmt else_stmt))
        = local_declarations.has_local_declarations stmt)
  /\ (forall cond body,
        local_declarations.has_local_declarations
          (typed_sequence_statement_t stmt (typed_while_statement_t cond body))
        = local_declarations.has_local_declarations stmt).
Proof.
  split; [|split].
  - induction stmt as [ | lv rv | c v | lc rc | lc rc v | c v
                        | s1 IH1 s2 IH2 | cond st IHt se IHe | cond st IHs
                        | x v | x v ]; try reflexivity.
    rewrite has_local_declarations_sequence, IH1, IH2. simpl.
    rewrite existsb_app. reflexivity.
  - intros cond t e. rewrite has_local_declarations_sequence.
    apply orb_false_r.
  - intros cond body. rewrite has_local_declarations_sequence.
    apply orb_false_r.
Qed.

End StatementAnalysis.

#[local] Existing Instance more_examples.lvalue_bases.

Lemma extract_written_variables_assignments_witness :
  written_variables.extract_written_variables
    (statement.typed_sequence_statement_t examples.stmt1 examples.stmt2)
    (examples.param_expr 9)
  = statement.sets_union (examples.param_expr 9)
      (written_variables.base_variables_of_all
         (written_variables.assigned_lvalues
            (statement.typed_sequence_statement_t examples.stmt1 examples.stmt2)))
  /\ statement.sets_subseteq (examples.param_expr 9)
       (written_variables.extract_written_variables
          (statement.typed_sequence_statement_t examples.stmt1 examples.stmt2)
          (examples.param_expr 9)).
Proof.
  exact (extract_written_variables_assignments
           (statement.typed_sequence_statement_t examples.stmt1 examples.stmt2)
           (examples.param_expr 9)).
Defined.

(** [x1 := i2 ; if (p3) then i0[i4] := x5 else nop] writes the clock 1 and
    the integer variable 0, not the offset [i4] nor the condition [p3]. *)
Example extract_written_variables_run :
  written_variables.extract_written_variables
    (statement.typed_sequence_statement_t examples.stmt1 examples.stmt2)
    statement.empty_sets
  = statement.mk_var_sets {[1%nat]} {[0%nat]} ∅.
Proof. apply var_sets_eq; vm_compute; reflexivity. Qed.

(** A declaration in a sequence is seen, one in the branch of an [if] is
    not. *)
Example has_local_declarations_run :
  local_declarations.has_local_declarations more_examples.stmt_local = true
  /\ local_declarations.has_local_declarations more_examples.stmt_nested_local = false.
Proof. split; reflexivity. Qed.

(** ** Parameters of a system *)

Section SystemParams.
Import variables system_params.
Context `{V : ArrayVariables} `{A : Attributes}.

Lemma emplace_back_times_replicate (size : nat) (attr : attributes_t)
    (attrs : list attributes_t) :
  emplace_back_times size attr attrs = attrs ++ replicate size attr.
Proof.
  revert attrs. induction size as [|size IH]; intros attrs; simpl.
  - rewrite app_nil_r. reflexivity.
  - rewrite IH, <- app_assoc. reflexivity.
Qed.

Lemma add_param_returns (name : string) (size : nat) (min max : integer_t)
    (attr : attributes_t) (this this' : params_t) :
  add_param name size min max attr this = Returns this' ->
  exists id,
    declare name size min max (_parameters this) = Returns (id, _parameters this')
    /\ _parameters_attr this' = _parameters_attr this ++ replicate size attr.
Proof.
  unfold add_param. intros Hadd.
  destruct (declare name size min max (_parameters this)) as [[id ps]|e];
    simpl in Hadd; [|discriminate].
  injection Hadd as <-. simpl. exists id.
  split; [reflexivity | apply emplace_back_times_replicate].
Qed.

Lemma param_attributes_lookup (this : params_t) (id : param_id_t)
    (attr : attributes_t) :
  _parameters_attr this !! id = Some attr -> param_attributes this id = Returns attr.
Proof.
  intros Hid. unfold param_attributes.
  assert (Hlt : (id < length (_parameters_attr this))%nat)
    by (apply lookup_lt_is_Some; eauto).
  destruct (Nat.leb_spec (length (_parameters_attr this)) id); [lia|].
  rewrite Hid. reflexivity.
Qed.

Lemma param_attributes_out_of_range (this : params_t) (id : param_id_t) :
  (length (_parameters_attr this) <= id)%nat ->
  param_attributes this id
  = Throws (invalid_argument "Unknown integer variable identifier").
Proof.
  intros Hge. unfold param_attributes.
  destruct (Nat.leb_spec (length (_parameters_attr this)) id); [reflexivity | lia].
Qed.

(** X4: when [add_param] succeeds the table of attributes has grown by
    exactly [size] entries: [param_attributes] answers as before for the
    identifiers it knew, gives [attr] for each of the [size] new identifiers,
    and throws [std::invalid_argument] for every identifier beyond. *)
Theorem add_param_then_param_attributes (name : string) (size : nat)
    (min max : integer_t) (attr : attributes_t) (this this' : params_t) :
  add_param name size min max attr this = Returns this' ->
  let known := length (_parameters_attr this) in
  length (_parameters_attr this') = (known + size)%nat
  /\ (forall id, (id < known)%nat ->
        param_attributes this' id = param_attributes this id)
  /\ (forall i, (i < size)%nat ->
        param_attributes this' (known + i) = Returns attr)
  /\ (forall id, (known + size <= id)%nat ->
        throws_invalid_argument (param_attributes this' id)).
Proof.
  intros Hadd known.
  destruct (add_param_returns _ _ _ _ _ _ _ Hadd) as (id0 & _ & Hattrs).
  assert (Hlen : length (_parameters_attr this') = (known + size)%nat).
  { rewrite Hattrs, length_app, length_replicate. reflexivity. }
  split; [exact Hlen|]. split; [|split].
  - intros id Hid.
    destruct (lookup_lt_is_Some_2 (_parameters_attr this) id Hid) as [a Ha].
    rewrite (param_attributes_lookup this id a Ha).
    apply param_attributes_lookup. rewrite Hattrs.
    rewrite lookup_app_l by exact Hid. exact Ha.
  - intros i Hi. apply param_attributes_lookup. rewrite Hattrs.
    rewrite lookup_app_r by (unfold known; lia).
    replace (known + i - length (_parameters_attr this))%nat with i
      by (unfold known; lia).
    apply lookup_replicate_2, Hi.
  - intros id Hid. rewrite param_attributes_out_of_range by lia.
    eexists; reflexivity.
Qed.

(** X5: [add_param] with out-of-range bounds, [min < 0] or [min > max], or
    with the size 0 throws [std::invalid_argument], whatever the parameters
    already declared and the attributes given. *)
Theorem add_param_rejects_malformed (name : string) (size : nat)
    (min max : integer_t) (attr : attributes_t) (this : params_t) :
  min < 0 \/ min > max \/ size = 0%nat ->
  throws_invalid_argument (add_param name size min max attr this).
Proof.
  intros Hbad. unfold add_param, declare.
  assert (Hctor : throws_invalid_argument (param_info_t_ctor size min max)).
  { destruct Hbad as [Hmin | [Hmax | ->]].
    - apply param_info_t_ctor_out_of_range. left. exact Hmin.
    - apply param_info_t_ctor_out_of_range. right. exact Hmax.
    - eexists. reflexivity. }
  destruct Hctor as [what ->]. eexists. reflexivity.
Qed.

Lemma param_info_t_ctor_size (size : nat) (min max : integer_t)
    (info : param_info_t) :
  param_info_t_ctor size min max = Returns info -> variables.size info = size.
Proof.
  unfold param_info_t_ctor, size_info_t_ctor.
  destruct (size =? 0)%nat; simpl; [discriminate|].
  destruct ((min <? 0) || (min >? max)); [discriminate|].
  intros Hinfo. injection Hinfo as <-. reflexivity.
Qed.

(** X6: the assertion that closes [add_param] holds: if the attributes
    covered the flattened parameters before the call, and the declaration of
    an array of parameters makes the flattened size grow by the size of the
    array, they do so after a successful call. *)
Theorem add_param_assertion_holds `{!FlattenedSize} (name : string) (size : nat)
    (min max : integer_t) (attr : attributes_t) (this this' : params_t) :
  (forall name info parameters id parameters',
     array_variables_declare name info parameters = Returns (id, parameters') ->
     flattened_size parameters'
     = (flattened_size parameters + variables.size info)%nat) ->
  attributes_cover_parameters this ->
  add_param name size min max attr this = Returns this' ->
  attributes_cover_parameters this'.
Proof.
  intros Hlaw Hinv Hadd. unfold attributes_cover_parameters in *.
  destruct (add_param_returns _ _ _ _ _ _ _ Hadd) as (id & Hdecl & Hattrs).
  unfold declare in Hdecl.
  destruct (param_info_t_ctor size min max) as [info|e] eqn:Hinfo;
    simpl in Hdecl; [|discriminate].
  rewrite (Hlaw _ _ _ _ _ Hdecl), (param_info_t_ctor_size _ _ _ _ Hinfo).
  rewrite Hattrs, length_app, length_replicate, Hinv. reflexivity.
Qed.

End SystemParams.

#[local] Existing Instance examples.registry.
#[local] Existing Instance more_examples.string_attributes.
#[local] Existing Instance more_examples.registry_size.

Lemma registry_flattened_size_grows (name : string)
    (info : variables.param_info_t)
    (parameters : list (string * variables.param_info_t)) (id : param_id_t)
    (parameters' : list (string * variables.param_info_t)) :
  variables.array_variables_declare (ArrayVariables := examples.registry)
    name info parameters = Returns (id, parameters') ->
  more_examples.registry_flattened_size parameters'
  = (more_examples.registry_flattened_size parameters + variables.size info)%nat.
Proof.
  simpl. destruct (bool_decide (name ∈ examples.declared_names parameters));
    [discriminate|].
  intros Hdecl. injection Hdecl as _ <-.
  unfold more_examples.registry_flattened_size. rewrite foldr_app. simpl.
  induction parameters as [|entry parameters IH]; simpl; [lia|].
  rewrite IH. lia.
Qed.

Lemma add_param_then_param_attributes_witness :
  length (system_params._parameters_attr more_examples.params_after_k) = (0 + 2)%nat
  /\ (forall id, (id < 0)%nat ->
        system_params.param_attributes more_examples.params_after_k id
        = system_params.param_attributes more_examples.params0 id)
  /\ (forall i, (i < 2)%nat ->
        system_params.param_attributes more_examples.params_after_k (0 + i)
        = Returns more_examples.range_attr)
  /\ (forall id, (0 + 2 <= id)%nat ->
        throws_invalid_argument (system_params.param_attributes more_examples.params_after_k id)).
Proof.
  apply (add_param_then_param_attributes "k" 2 0 3 more_examples.range_attr
           more_examples.params0 more_examples.params_after_k).
  vm_compute. reflexivity.
Defined.

Lemma add_param_rejects_malformed_witness :
  throws_invalid_argument
    (system_params.add_param "k" 2 5 3 more_examples.range_attr more_examples.params0)
  /\ throws_invalid_argument
       (system_params.add_param "k" 0 0 3 more_examples.range_attr more_examples.params_after_k).
Proof.
  split.
  - apply (add_param_rejects_malformed "k" 2 5 3 more_examples.range_attr more_examples.params0).
    right. left. lia.
  - apply (add_param_rejects_malformed "k" 0 0 3 more_examples.range_attr more_examples.params_after_k).
    right. right. reflexivity.
Defined.

Lemma add_param_assertion_holds_witness :
  system_params.attributes_cover_parameters more_examples.params_after_k.
Proof.
  apply (add_param_assertion_holds "k" 2 0 3 more_examples.range_attr
           more_examples.params0 more_examples.params_after_k).
  - exact registry_flattened_size_grows.
  - reflexivity.
  - vm_compute. reflexivity.
Defined.

(** ** Output of a valuation of parameters *)

Section ParamsOutput.
Import params_output.
Context `{IO : IntegerOutput}.

Lemma string_app_nil_r (s : string) : s +:+ "" = s.
Proof.
  induction s as [|a s IH]; [reflexivity|].
  change (String a s +:+ "") with (String a (s +:+ "")). rewrite IH. reflexivity.
Qed.

Lemma string_app_assoc (s1 s2 s3 : string) :
  (s1 +:+ s2) +:+ s3 = s1 +:+ (s2 +:+ s3).
Proof.
  induction s1 as [|a s1 IH]; [reflexivity|].
  change ((String a s1 +:+ s2) +:+ s3) with (String a ((s1 +:+ s2) +:+ s3)).
  change (String a s1 +:+ (s2 +:+ s3)) with (String a (s1 +:+ (s2 +:+ s3))).
  rewrite IH. reflexivity.
Qed.

Lemma written_from_positive (id : nat) (e : string) (entries : list string) :
  written_from (S id) (e :: entries) = "," +:+ comma_separated (e :: entries).
Proof.
  revert id e. induction entries as [|e' entries IH]; intros id e.
  - simpl. rewrite string_app_nil_r. reflexivity.
  - change (written_from (S id) (e :: e' :: entries))
      with ("," +:+ e +:+ written_from (S (S id)) (e' :: entries)).
    rewrite IH. reflexivity.
Qed.

Lemma written_from_zero (entries : list string) :
  written_from 0 entries = comma_separated entries.
Proof.
  destruct entries as [|e [|e' entries]].
  - reflexivity.
  - simpl. change ("" +:+ e +:+ "") with (e +:+ ""). apply string_app_nil_r.
  - change (written_from 0 (e :: e' :: entries))
      with (e +:+ written_from 1 (e' :: entries)).
    rewrite written_from_positive. reflexivity.
Qed.

Lemma output_loop (index : list string) (params_val : list integer_t) (n : nat) :
  forall (id : nat) (os : string),
    (id + n <= length index)%nat -> (id + n <= length params_val)%nat ->
    foldl (output_step index params_val) (Some os) (seq id n)
    = Some (os +:+ written_from id
                     (zip_with entry (take n (drop id index))
                        (take n (drop id params_val)))).
Proof.
  induction n as [|n IH]; intros id os Hindex Hval.
  - simpl. rewrite string_app_nil_r. reflexivity.
  - destruct (lookup_lt_is_Some_2 index id ltac:(lia)) as [name Hname].
    destruct (lookup_lt_is_Some_2 params_val id ltac:(lia)) as [value Hvalue].
    rewrite (drop_S _ _ _ Hname), (drop_S _ _ _ Hvalue).
    change (seq id (S n)) with (id :: seq (S id) n).
    cbn [foldl take zip_with written_from].
    unfold output_step at 2. cbn [mbind option_bind].
    rewrite Hname, Hvalue. cbn [mbind option_bind].
    rewrite IH by lia. f_equal. fold (entry name value).
    destruct (0 <? id)%nat; rewrite !string_app_assoc; reflexivity.
Qed.

Lemma zip_with_take_r {A B C} (f : A -> B -> C) (l : list A) (k : list B) :
  zip_with f l (take (length l) k) = zip_with f l k.
Proof.
  revert k. induction l as [|x l IH]; intros [|y k]; simpl; try reflexivity.
  rewrite IH. reflexivity.
Qed.

(** X7: for a valuation that has a value for every identifier of the index,
    [to_string] is the list of the entries [name=value] in the order of the
    identifiers, separated by commas, without a comma at either end (the
    empty string for an empty index); [output] appends it to what the
    stream holds. *)
Theorem to_string_comma_separated (os : string) (params_val : list integer_t)
    (index : list string) :
  (length index <= length params_val)%nat ->
  to_string params_val index
  = Some (comma_separated (zip_with entry index params_val))
  /\ output os params_val index
     = Some (os +:+ comma_separated (zip_with entry index params_val)).
Proof.
  intros Hlen.
  assert (Hout : forall os', output os' params_val index
            = Some (os' +:+ comma_separated (zip_with entry index params_val))).
  { intros os'. unfold output.
    rewrite (output_loop index params_val (length index) 0 os') by (simpl; lia).
    rewrite !drop_0, firstn_all, zip_with_take_r, written_from_zero.
    reflexivity. }
  split; [|apply Hout].
  unfold to_string. rewrite Hout. reflexivity.
Qed.

End ParamsOutput.

#[local] Existing Instance more_examples.decimal_output.

Lemma to_string_comma_separated_witness :
  params_output.to_string [2; -1; 40] ["k"; "low"; "high"]%string
  = Some (params_output.comma_separated
            (zip_with params_output.entry ["k"; "low"; "high"]%string [2; -1; 40]))
  /\ params_output.output "params: " [2; -1; 40] ["k"; "low"; "high"]%string
     = Some ("params: "
             +:+ params_output.comma_separated
                   (zip_with params_output.entry ["k"; "low"; "high"]%string
                      [2; -1; 40])).
Proof.
  apply (to_string_comma_separated "params: " [2; -1; 40]
           ["k"; "low"; "high"]%string).
  simpl. lia.
Defined.

Example to_string_run :
  params_output.to_string [2; -1; 40] ["k"; "low"; "high"]%string
  = Some "k=2,low=-1,high=40"%string
  /\ params_output.to_string [] [] = Some ""%string.
Proof. split; vm_compute; reflexivity. Qed.

(** ** Initial states and factory of the zone graph with reference clocks *)

Section RefzgFactory.
Import refzg refzg_factory.
Context `{IOps : InitialOperations}.

(** X8: in [refzg::initial] the discrete initialisation comes first. If it
    returns a status other than [STATE_OK], or throws, that is the result and
    the zone is as it was; otherwise [semantics.initial] runs on the DBM as
    it was, with the delays allowed at the initialised tuple of locations
    and the invariant that the discrete initialisation has produced. *)
Theorem initial_discrete_step_first (system : system_t) (d d' : initial_discrete_t)
    (z : zone_t) (semantics : semantics_t) (spread : integer_t)
    (initial_range : initial_value_t) (result : outcome state_status_t) :
  ta_initial system d initial_range = (result, d') ->
  (forall status, result = Returns status -> status <> STATE_OK ->
     initial system d z semantics spread initial_range = (Returns status, d', z))
  /\ (forall e, result = Throws e ->
        initial system d z semantics spread initial_range = (Throws e, d', z))
  /\ (result = Returns STATE_OK ->
        let r := reference_clock_variables z in
        let step :=
          semantics_initial semantics (dbm z) r
            (ta_delay_allowed system r (init_vloc d')) (init_invariant d') spread in
        initial system d z semantics spread initial_range
        = (Returns (fst step), d', mk_zone r (snd step))).
Proof.
  intros Hta. unfold initial. rewrite Hta. split; [|split].
  - intros status -> Hko. rewrite bool_decide_eq_true_2 by exact Hko. reflexivity.
  - intros e ->. reflexivity.
  - intros ->. rewrite bool_decide_eq_false_2 by (intros Hne; apply Hne; reflexivity).
    simpl.
    destruct (semantics_initial semantics (dbm z) (reference_clock_variables z)
                (ta_delay_allowed system (reference_clock_variables z) (init_vloc d'))
                (init_invariant d') spread) as [status rdbm].
    reflexivity.
Qed.

(** X9: the factory reports an unknown type of reference clocks with
    [std::invalid_argument] before it looks at the type of semantics, and,
    for process reference clocks, rejects with [std::invalid_argument] a
    system with a shared variable for which more than one reference clock is
    built, both for [factory] and for [factory_sharing]. *)
Theorem factory_rejections (system : system_t) (semantics_type : semantics_type_t)
    (spread : integer_t) (block_size table_size : nat) :
  (forall value,
     factory system (OTHER_REFERENCE_CLOCKS value) semantics_type spread
       block_size table_size
     = Throws (invalid_argument "Unknown reference clock variables type")
     /\ factory_sharing system (OTHER_REFERENCE_CLOCKS value) semantics_type spread
          block_size table_size
        = Throws (invalid_argument "Unknown reference clock variables type"))
  /\ ((exists semantics, semantics_factory semantics_type = Returns semantics) ->
      has_shared_variable (variable_access system) = true ->
      (1 < refcount (process_reference_clocks (variable_access system)
                       (clock_variables_flattened system)
                       (processes_count system)))%nat ->
      throws_invalid_argument
        (factory system PROCESS_REFERENCE_CLOCKS semantics_type spread
           block_size table_size)
      /\ throws_invalid_argument
           (factory_sharing system PROCESS_REFERENCE_CLOCKS semantics_type spread
              block_size table_size)).
Proof.
  split.
  - intros value. split; reflexivity.
  - intros [semantics Hsem] Hshared Hcount.
    unfold factory, factory_sharing, factory_generic. simpl. rewrite Hsem. simpl.
    unfold refzg_impl_t_ctor. simpl. rewrite Hshared.
    destruct (Nat.ltb_spec 1
                (refcount (process_reference_clocks (variable_access system)
                             (clock_variables_flattened system)
                             (processes_count system)))) as [_|Hle]; [|lia].
    simpl. split; eexists; reflexivity.
Qed.

(** X10: with a single reference clock ([single_reference_clocks] builds
    one reference clock) the factory accepts every system, with or without
    shared variables, as soon as the type of semantics is known: the zone
    graph holds the system, the semantics built and the spread. *)
Theorem factory_single_reference_clock (system : system_t)
    (semantics_type : semantics_type_t) (semantics : semantics_t)
    (spread : integer_t) (block_size table_size : nat) :
  (forall flat n, refcount (single_reference_clocks flat n) = 1%nat) ->
  semantics_factory semantics_type = Returns semantics ->
  exists this,
    factory system SINGLE_REFERENCE_CLOCKS semantics_type spread block_size table_size
    = Returns this
    /\ _system this = system /\ _semantics this = semantics /\ _spread this = spread
    /\ refcount (_r this) = 1%nat.
Proof.
  intros Hsingle Hsem.
  unfold factory, factory_generic. simpl. rewrite Hsem. simpl.
  unfold refzg_impl_t_ctor. simpl. rewrite Hsingle, andb_false_r.
  eexists. split; [reflexivity|]. simpl. auto.
Qed.

End RefzgFactory.

#[local] Existing Instance more_examples.refzg_initial_operations.

Lemma initial_discrete_step_first_witness :
  refzg_factory.initial examples.system_plain more_examples.initial_discrete_negative
    more_examples.zone1 examples.semantics1 1 more_examples.initial_ok
  = (Returns STATE_INTVAR_VIOLATED, more_examples.initial_discrete_after,
     more_examples.zone1).
Proof.
  refine (proj1 (initial_discrete_step_first examples.system_plain
                   more_examples.initial_discrete_negative
                   more_examples.initial_discrete_after more_examples.zone1
                   examples.semantics1 1 more_examples.initial_ok
                   (Returns STATE_INTVAR_VIOLATED) _)
            STATE_INTVAR_VIOLATED eq_refl _).
  - vm_compute. reflexivity.
  - discriminate.
Defined.

(** An initial state: the locations are set, the DBM goes through
    [semantics.initial]. *)
Example initial_ok_run :
  refzg_factory.initial examples.system_plain more_examples.initial_discrete1
    more_examples.zone1 examples.semantics1 1 more_examples.initial_ok
  = (Returns STATE_OK,
     refzg_factory.mk_initial_discrete [0; 2]%nat [0] [None; None] [],
     refzg.mk_zone 2%nat [[1; 2]; [3; 1]]).
Proof. vm_compute. reflexivity. Qed.

Lemma factory_rejections_witness :
  throws_invalid_argument
    (refzg_factory.factory examples.system_shared
       refzg_factory.PROCESS_REFERENCE_CLOCKS more_examples.known 0 8 16)
  /\ throws_invalid_argument
       (refzg_factory.factory_sharing examples.system_shared
          refzg_factory.PROCESS_REFERENCE_CLOCKS more_examples.known 0 8 16).
Proof.
  apply (proj2 (factory_rejections examples.system_shared more_examples.known 0 8 16)).
  - exists examples.semantics1. reflexivity.
  - reflexivity.
  - vm_compute. lia.
Defined.

Lemma factory_single_reference_clock_witness :
  exists this,
    refzg_factory.factory examples.system_shared
      refzg_factory.SINGLE_REFERENCE_CLOCKS more_examples.known 0 8 16
    = Returns this
    /\ refzg._system this = examples.system_shared
    /\ refzg._semantics this = examples.semantics1
    /\ refzg._spread this = 0
    /\ refzg.refcount (refzg._r this) = 1%nat.
Proof.
  apply (factory_single_reference_clock examples.system_shared more_examples.known
           examples.semantics1 0 8 16).
  - intros flat n. reflexivity.
  - reflexivity.
Defined.

(** ** Orders on the nodes of the covering reachability graph *)

Section NodeOrders.
Import zg_covreach zg_covreach_order.
Context `{St : States} `{Hsh : !Hashing} `{Cmp : !Comparisons}.

(** X11: when the two lexical comparisons it combines are three-way
    comparisons, [node_lexical_less_t] is a strict order fit for sorting: no
    node is less than itself, two nodes are never less than each other, it
    is transitive, and two nodes neither of which is less than the other
    have equal states and equal flags for the comparisons. *)
Theorem node_lexical_less_strict_order :
  three_way zg_lexical_cmp -> three_way graph_lexical_cmp ->
  (forall n, node_lexical_less n n = false)
  /\ (forall n1 n2, node_lexical_less n1 n2 = true -> node_lexical_less n2 n1 = false)
  /\ (forall n1 n2 n3, node_lexical_less n1 n2 = true ->
        node_lexical_less n2 n3 = true -> node_lexical_less n1 n3 = true)
  /\ (forall n1 n2, node_lexical_less n1 n2 = false ->
        node_lexical_less n2 n1 = false ->
        zg_lexical_cmp (state n1) (state n2) = 0
        /\ graph_lexical_cmp (node_flags n1) (node_flags n2) = 0).
Proof.
  intros [Ssign Strans] [Fsign Ftrans].
  assert (Hless : forall n1 n2,
            node_lexical_less n1 n2 = true
            <-> zg_lexical_cmp (state n1) (state n2) < 0
                \/ (zg_lexical_cmp (state n1) (state n2) = 0
                    /\ graph_lexical_cmp (node_flags n1) (node_flags n2) < 0)).
  { intros n1 n2. unfold node_lexical_less.
    destruct (Z.eqb_spec (zg_lexical_cmp (state n1) (state n2)) 0) as [Heq|Hne];
      simpl; rewrite Z.ltb_lt; lia. }
  assert (Hnot : forall n1 n2,
            node_lexical_less n1 n2 = false <-> ~ node_lexical_less n1 n2 = true).
  { intros n1 n2. destruct (node_lexical_less n1 n2); split; congruence. }
  split; [|split; [|split]].
  - intros n. apply Hnot. rewrite Hless.
    pose proof (Ssign (state n) (state n)).
    pose proof (Fsign (node_flags n) (node_flags n)). lia.
  - intros n1 n2 H12. apply Hnot. rewrite Hless. apply Hless in H12.
    pose proof (Ssign (state n1) (state n2)).
    pose proof (Ssign (state n2) (state n1)).
    pose proof (Fsign (node_flags n1) (node_flags n2)).
    pose proof (Fsign (node_flags n2) (node_flags n1)). lia.
  - intros n1 n2 n3 H12 H23. apply Hless. apply Hless in H12, H23.
    pose proof (Ssign (state n1) (state n2)).
    pose proof (Ssign (state n2) (state n1)).
    pose proof (Ssign (state n2) (state n3)).
    pose proof (Ssign (state n3) (state n2)).
    pose proof (Ssign (state n1) (state n3)).
    pose proof (Ssign (state n3) (state n1)).
    pose proof (Strans (state n1) (state n2) (state n3)).
    pose proof (Strans (state n3) (state n1) (state n2)).
    pose proof (Strans (state n2) (state n3) (state n1)).
    pose proof (Fsign (node_flags n1) (node_flags n2)).
    pose proof (Fsign (node_flags n2) (node_flags n1)).
    pose proof (Fsign (node_flags n2) (node_flags n3)).
    pose proof (Fsign (node_flags n3) (node_flags n2)).
    pose proof (Fsign (node_flags n1) (node_flags n3)).
    pose proof (Fsign (node_flags n3) (node_flags n1)).
    pose proof (Ftrans (node_flags n1) (node_flags n2) (node_flags n3)).
    pose proof (Ftrans (node_flags n3) (node_flags n1) (node_flags n2)).
    pose proof (Ftrans (node_flags n2) (node_flags n3) (node_flags n1)).
    lia.
  - intros n1 n2 H12 H21. apply Hnot in H12, H21. rewrite Hless in H12, H21.
    pose proof (Ssign (state n1) (state n2)).
    pose proof (Ssign (state n2) (state n1)).
    pose proof (Fsign (node_flags n1) (node_flags n2)).
    pose proof (Fsign (node_flags n2) (node_flags n1)). lia.
Qed.

(** X12: the hash and the covering of nodes agree, given that a state only
    covers states with its own discrete part: a node that is covered by
    another has the same hash, so it is looked for where the other is
    stored. *)
Theorem node_le_same_hash (n1 n2 : node_t) :
  (forall s1 s2, zg_shared_is_le s1 s2 = true -> as_ta_state s1 = as_ta_state s2) ->
  node_le n1 n2 = true -> node_hash n1 = node_hash n2.
Proof.
  intros Hdiscrete Hle. unfold node_le in Hle. unfold node_hash.
  rewrite (Hdiscrete _ _ Hle). reflexivity.
Qed.

End NodeOrders.

#[local] Existing Instance more_examples.covreach_comparisons.

Lemma example_comparisons_three_way :
  zg_covreach_order.three_way
    (zg_covreach_order.zg_lexical_cmp (Comparisons := more_examples.covreach_comparisons))
  /\ zg_covreach_order.three_way
       (zg_covreach_order.graph_lexical_cmp
          (Comparisons := more_examples.covreach_comparisons)).
Proof.
  split; split; simpl; intros; lia.
Qed.

Lemma example_state_le_discrete (s1 s2 : zg_covreach.zg_state_t) :
  more_examples.state_le s1 s2 = true ->
  zg_covreach.as_ta_state s1 = zg_covreach.as_ta_state s2.
Proof.
  unfold more_examples.state_le, more_examples.discrete_eqb.
  destruct (zg_covreach.as_ta_state s1) as [v1 i1],
           (zg_covreach.as_ta_state s2) as [v2 i2]. simpl.
  intros Hle. apply andb_true_iff in Hle. destruct Hle as [Hd _].
  apply andb_true_iff in Hd. destruct Hd as [Hv Hi].
  apply bool_decide_eq_true_1 in Hv, Hi. subst. reflexivity.
Qed.

Lemma node_lexical_less_strict_order_witness :
  zg_covreach_order.node_lexical_less examples.node1 examples.node1 = false
  /\ zg_covreach_order.node_lexical_less examples.node1 examples.node2 = false
  /\ zg_covreach_order.node_lexical_less examples.node2 examples.node1 = true.
Proof.
  destruct (node_lexical_less_strict_order
              (proj1 example_comparisons_three_way)
              (proj2 example_comparisons_three_way))
    as (Hirrefl & Hasym & _ & _).
  split; [apply Hirrefl|]. split; [apply Hasym|]; reflexivity.
Defined.

Lemma node_le_same_hash_witness :
  zg_covreach.node_hash examples.node1 = zg_covreach.node_hash more_examples.node_above.
Proof.
  apply (node_le_same_hash examples.node1 more_examples.node_above).
  - exact example_state_le_discrete.
  - vm_compute. reflexivity.
Defined.

(** ** Synchronized product: tuple of edges, order of the outgoing edges *)

Section SyncprodMore.
Import syncprod.

Lemma next_edges_vedge (edges : outgoing_edges_value_t) :
  forall (size : nat) (vloc vloc' : vloc_t) (vedge vedge' : vedge_t),
    next_edges size vloc vedge edges = Returns (STATE_OK, vloc', vedge') ->
    length vedge = size ->
    length vedge' = size
    /\ (forall p, p ∉ pid <$> edges -> vedge' !! p = vedge !! p)
    /\ (NoDup (pid <$> edges) ->
        forall edge, edge ∈ edges -> vedge' !! pid edge = Some (Some (id edge))).
Proof.
  induction edges as [|edge edges IH]; intros size vloc vloc' vedge vedge' Hnext Hlen.
  - simpl in Hnext. injection Hnext as <- <-.
    split; [exact Hlen|]. split; [reflexivity|]. intros _ e He. inversion He.
  - simpl in Hnext.
    destruct (Nat.leb_spec size (pid edge)) as [|Hlt]; [discriminate|].
    destruct (bool_decide (vloc !! pid edge = Some (src edge))); [|discriminate].
    apply IH in Hnext; [|rewrite length_insert; exact Hlen].
    destruct Hnext as (Hlen' & Hframe & Hset).
    split; [exact Hlen'|]. split.
    + intros p Hp. rewrite fmap_cons in Hp. apply not_elem_of_cons in Hp.
      destruct Hp as [Hne Hp]. rewrite (Hframe p Hp).
      apply list_lookup_insert_ne. congruence.
    + intros Hnodup e He. rewrite fmap_cons in Hnodup.
      apply NoDup_cons in Hnodup. destruct Hnodup as [Hfresh Hnodup].
      apply elem_of_cons in He. destruct He as [->|He].
      * rewrite (Hframe _ Hfresh). apply list_lookup_insert_eq. lia.
      * apply (Hset Hnodup e He).
Qed.

(** X13: after a successful step ([STATE_OK]) the tuple of edges has the
    size of the tuple of locations, holds the identifier of its edge for
    each process of the joint edge (at most one edge for a process) and no
    edge for every other process; what the tuple of edges held before the
    call has no influence on the result. *)
Theorem next_ok_vedge (system : system_t) (vloc vloc' : vloc_t)
    (vedge vedge' : vedge_t) (edges : outgoing_edges_value_t) :
  next system vloc vedge edges = Returns (STATE_OK, vloc', vedge') ->
  length vedge' = length vloc
  /\ (forall p, (p < length vloc)%nat -> p ∉ pid <$> edges ->
        vedge' !! p = Some NO_EDGE)
  /\ (NoDup (pid <$> edges) ->
      forall edge, edge ∈ edges -> vedge' !! pid edge = Some (Some (id edge)))
  /\ (forall previous : vedge_t, length previous = length vedge ->
        next system vloc previous edges = Returns (STATE_OK, vloc', vedge')).
Proof.
  unfold next. intros Hnext.
  destruct (Nat.eqb_spec (length vloc) (length vedge)) as [Hlen|];
    simpl in Hnext; [|discriminate].
  pose proof (next_edges_vedge _ _ _ _ _ _ Hnext (length_replicate _ _))
    as (Hlen' & Hframe & Hset).
  split; [exact Hlen'|]. split; [|split].
  - intros p Hp Hfresh. rewrite (Hframe p Hfresh).
    apply lookup_replicate_2, Hp.
  - exact Hset.
  - intros previous Hprev. rewrite Hprev, <- Hlen, Nat.eqb_refl. simpl.
    exact Hnext.
Qed.

Lemma filter_sublist {A} (f : A -> bool) (l : list A) :
  List.filter f l `sublist_of` l.
Proof.
  induction l as [|x l IH]; simpl; [constructor|].
  destruct (f x); [apply sublist_skip | apply sublist_cons]; exact IH.
Qed.

(** X14: the outgoing edges are delivered in the order of the underlying
    iterator, none invented and none repeated: they form a sub-sequence of
    the joint edges at the tuple of locations. *)
Theorem outgoing_edges_sublist `{EI : EdgesIterators} (system : system_t)
    (vloc : vloc_t) :
  outgoing_edges system vloc `sublist_of` vloc_edges system vloc
  /\ (NoDup (vloc_edges system vloc) -> NoDup (outgoing_edges system vloc)).
Proof.
  assert (Hsub : outgoing_edges system vloc `sublist_of` vloc_edges system vloc).
  { rewrite outgoing_edges_eq.
    destruct (any (committed_processes system vloc));
      [apply filter_sublist | reflexivity]. }
  split; [exact Hsub|]. intros Hnodup. eapply sublist_NoDup; eassumption.
Qed.

Lemma advance_enabled (committed : list bool) (it : list (list edge_t)) :
  match advance committed it with
  | [] => True
  | r :: _ => involves_committed_process committed r = true
  end.
Proof.
  induction it as [|r it IH]; simpl; [exact I|].
  destruct (involves_committed_process committed r) eqn:Hr; [exact Hr | exact IH].
Qed.

(** X15: an iterator that has been built or incremented never rests on a
    joint edge that is filtered out: with a committed process, the joint
    edge it points to, if any, involves a committed process; without one,
    incrementing moves to the very next joint edge. *)
Theorem iterator_rests_on_enabled_edge :
  (forall it committed r,
     any committed = true ->
     deref (outgoing_edges_iterator_t_ctor it committed) = Some r ->
     involves_committed_process committed r = true)
  /\ (forall this r,
        _committed this = true -> deref (incr this) = Some r ->
        involves_committed_process (_committed_processes this) r = true)
  /\ (forall this,
        _committed this = false ->
        incr this
        = mk_outgoing_edges_iterator (tail (_it this))
            (_committed_processes this) false).
Proof.
  split; [|split].
  - intros it committed r Hany.
    unfold outgoing_edges_iterator_t_ctor, advance_while_not_enabled, deref.
    simpl. rewrite Hany. simpl.
    pose proof (advance_enabled committed it) as Henabled.
    destruct (advance committed it) as [|r' rest]; simpl; [discriminate|].
    intros Hr. injection Hr as <-. exact Henabled.
  - intros this r Hc.
    unfold incr, advance_while_not_enabled, deref. simpl. rewrite Hc. simpl.
    pose proof (advance_enabled (_committed_processes this) (tail (_it this)))
      as Henabled.
    destruct (advance (_committed_processes this) (tail (_it this))) as [|r' rest];
      simpl; [discriminate|].
    intros Hr. injection Hr as <-. exact Henabled.
  - intros this Hc. unfold incr, advance_while_not_enabled. simpl.
    rewrite Hc. reflexivity.
Qed.

End SyncprodMore.

Lemma next_ok_vedge_witness :
  length [Some 0%nat; None] = length [0; 2]%nat
  /\ (forall p, (p < length [0; 2]%nat)%nat ->
        p ∉ syncprod.pid <$> [examples.edge_p0] ->
        [Some 0%nat; None] !! p = Some syncprod.NO_EDGE)
  /\ (NoDup (syncprod.pid <$> [examples.edge_p0]) ->
      forall edge, edge ∈ [examples.edge_p0] ->
        [Some 0%nat; None] !! syncprod.pid edge = Some (Some (syncprod.id edge)))
  /\ (forall previous : list (option nat),
        length previous = length [Some 7%nat; Some 8%nat] ->
        syncprod.next examples.system1 [0; 2]%nat previous [examples.edge_p0]
        = Returns (STATE_OK, [1; 2]%nat, [Some 0%nat; None])).
Proof.
  apply (next_ok_vedge examples.system1 [0; 2]%nat [1; 2]%nat
           [Some 7%nat; Some 8%nat] [Some 0%nat; None] [examples.edge_p0]).
  vm_compute. reflexivity.
Defined.

Lemma iterator_rests_on_enabled_edge_witness :
  syncprod.involves_committed_process [true; false] [examples.edge_p0] = true.
Proof.
  apply (proj1 iterator_rests_on_enabled_edge
           [[examples.edge_p1]; [examples.edge_p0]] [true; false] [examples.edge_p0]).
  - reflexivity.
  - vm_compute. reflexivity.
Defined.

Lemma outgoing_edges_sublist_witness :
  syncprod.outgoing_edges examples.system1 [0; 2]%nat
    `sublist_of` syncprod.vloc_edges examples.system1 [0; 2]%nat
  /\ NoDup (syncprod.outgoing_edges examples.system1 [0; 2]%nat).
Proof.
  destruct (outgoing_edges_sublist examples.system1 [0; 2]%nat) as [Hsub Hnodup].
  split; [exact Hsub|]. apply Hnodup.
  change (NoDup [[examples.edge_p0]; [examples.edge_p1]]).
  apply NoDup_cons. split; [|apply NoDup_singleton].
  intros Hin. apply list_elem_of_singleton in Hin. discriminate Hin.
Defined.
